(** * exby: module linking and load order

    A shallow embedding of the linking core of exby:
    - the identifier allocator ([globalExportsVariableName] of bin/exby.js and
      [makeIdentifierGenerator] of src/babelPlugin.js),
    - the load-order flattening [flatImportList] and the construction of the
      dependency map,
    - the manifest rewrite loop (splice in reverse index order, then the
      uniqueness filter),
    - the IIFE argument templates of the Babel plugin, with a small
      evaluator for the expressions they build,
    - the output-count check that follows each IIFE build.

    JavaScript strings are modelled by [string]; a character stands for one
    code unit.  A [Map] and an object used as a dictionary are [gmap]s. *)

From Stdlib Require Import Ascii.
From Equations Require Import Equations.
From stdpp Require Import gmap strings list fin_maps relations pretty.

(* ===================================================================== *)
(** * Part I: definitions                                                 *)
(* ===================================================================== *)

(** ** Outcomes of fallible code *)

(** The exceptions the modelled code can raise. *)
Inductive JsError :=
  | TypeError
  | ReferenceError (message : string)
  | RangeError (message : string)
  | Error (message : string).

(** A computation returns a value, throws, or exceeds the recursion depth
    granted to a model of unbounded recursion. *)
Inductive outcome (A : Type) :=
  | Ok (a : A)
  | Throw (e : JsError)
  | OutOfFuel.
Arguments Ok {A} a.
Arguments Throw {A} e.
Arguments OutOfFuel {A}.

Definition obind {A B} (m : outcome A) (k : A → outcome B) : outcome B :=
  match m with
  | Ok a => k a
  | Throw e => Throw e
  | OutOfFuel => OutOfFuel
  end.

Notation "x ← m ;;; k" := (obind m (λ x, k))
  (at level 20, m at level 100, k at level 200, right associativity,
   format "x  ←  m  ;;;  '/' k").

(** [Array.prototype.map] with a callback that may throw: callbacks run in
    index order and the first exception aborts the traversal. *)
Fixpoint mapM {A B} (f : A → outcome B) (l : list A) : outcome (list B) :=
  match l with
  | [] => Ok []
  | x :: l' => y ← f x ;;; ys ← mapM f l' ;;; Ok (y :: ys)
  end.

(** ** Strings *)

Definition inRange (lo hi : nat) (c : ascii) : bool :=
  (lo <=? nat_of_ascii c) && (nat_of_ascii c <=? hi).

Definition isLetter (c : ascii) : bool := inRange 97 122 c || inRange 65 90 c.
Definition isDigit (c : ascii) : bool := inRange 48 57 c.
Definition isUnderscore (c : ascii) : bool := Ascii.eqb c "_".
Definition isDollar (c : ascii) : bool := Ascii.eqb c "$".

(** The character class [[a-z0-9_]] under the [i] flag. *)
Definition isWordChar (c : ascii) : bool :=
  isLetter c || isDigit c || isUnderscore c.

(** [str.replace(/[^a-z0-9_]/gi, '_')] *)
Fixpoint replaceNonWord (str : string) : string :=
  match str with
  | EmptyString => EmptyString
  | String c rest =>
      String (if isWordChar c then c else "_"%char) (replaceNonWord rest)
  end.

Fixpoint allChars (p : ascii → bool) (s : string) : bool :=
  match s with
  | EmptyString => true
  | String c rest => p c && allChars p rest
  end.

(** [n] underscores, the text the collision loop appends in [n] rounds. *)
Fixpoint underscores (n : nat) : string :=
  match n with
  | 0 => EmptyString
  | S m => String "_" (underscores m)
  end.

(** *** JavaScript identifiers (ASCII fragment of the grammar) *)

Definition isIdentifierStart (c : ascii) : bool :=
  isLetter c || isUnderscore c || isDollar c.
Definition isIdentifierPart (c : ascii) : bool :=
  isIdentifierStart c || isDigit c.

Definition reservedWords : list string :=
  [ "await"; "break"; "case"; "catch"; "class"; "const"; "continue";
    "debugger"; "default"; "delete"; "do"; "else"; "enum"; "export";
    "extends"; "false"; "finally"; "for"; "function"; "if"; "import"; "in";
    "instanceof"; "new"; "null"; "return"; "super"; "switch"; "this";
    "throw"; "true"; "try"; "typeof"; "var"; "void"; "while"; "with";
    "yield"; "let"; "static"; "implements"; "interface"; "package";
    "private"; "protected"; "public"; "arguments"; "eval" ].

Definition isReservedWord (s : string) : bool :=
  existsb (String.eqb s) reservedWords.

(** An identifier starts with a letter, [_] or [$], continues with these or
    digits, and is not a reserved word. *)
Definition validIdentifier (s : string) : bool :=
  match s with
  | EmptyString => false
  | String c rest =>
      isIdentifierStart c && allChars isIdentifierPart rest
      && negb (isReservedWord s)
  end.

(** ** Identifier allocator *)

(** [[...cache.values()]] *)
Definition cacheValues (cache : gmap string string) : list string :=
  (map_to_list cache).*2.

(** [values.some(val => val === name)] *)
Definition collides (values : list string) (name : string) : bool :=
  existsb (λ val, String.eqb val name) values.

Definition maxLength (values : list string) : nat :=
  foldr (λ val acc, String.length val `max` acc) 0 values.

Definition inspect {A : Type} (x : A) : { y : A | x = y } := exist _ x eq_refl.

(** The collision loop
    [while ([...cache.values()].some(val => val === name)) { name += '_'; }]
    as a function of the candidate it is entered with.  Each round makes the
    candidate one character longer, and a candidate longer than every cached
    value collides with none. *)
Equations? uniquify (values : list string) (name : string) : string
  by wf (S (maxLength values) - String.length name) lt :=
  uniquify values name with inspect (collides values name) := {
    | exist _ true Hin => uniquify values (name +:+ "_")
    | exist _ false _ => name }.
Proof.
  assert (String.length name ≤ maxLength values) as Hle.
  { clear uniquify. induction values as [|val values IH]; simpl in *; [done|].
    apply orb_prop in Hin as [Heq|Hin].
    - apply String.eqb_eq in Heq as ->. lia.
    - specialize (IH Hin). lia. }
  assert (String.length (name +:+ "_") = S (String.length name)) as ->.
  { clear. induction name; simpl; congruence. }
  lia.
Qed.

(** bin/exby.js, [globalExportsVariableName]; the module-level
    [varNameCache] is threaded through. *)
Definition exbyPrefix : string := "__EXBY_MODULE__".
Definition exbySuffix : string := "__".

Definition globalExportsVariableName
    (varNameCache : gmap string string) (chunkFileName : string)
    : string * gmap string string :=
  match varNameCache !! chunkFileName with
  | Some existing => (existing, varNameCache)
  | None =>
      let name := exbyPrefix +:+ replaceNonWord chunkFileName +:+ exbySuffix in
      let name := uniquify (cacheValues varNameCache) name in
      (name, <[chunkFileName := name]> varNameCache)
  end.

(** Truthiness of a string: every string but the empty one. *)
Definition truthyString (s : string) : bool :=
  match s with EmptyString => false | _ => true end.

(** src/babelPlugin.js, the closure returned by
    [makeIdentifierGenerator(prefix, suffix)]; its private
    [uniqueIdentifierCache] is threaded through.  The cache test is
    [if (existing)], a truthiness test. *)
Definition makeIdentifierGenerator (prefix suffix : string)
    (uniqueIdentifierCache : gmap string string) (str : string)
    : string * gmap string string :=
  let fresh :=
    let uid := prefix +:+ replaceNonWord str +:+ suffix in
    let uid := uniquify (cacheValues uniqueIdentifierCache) uid in
    (uid, <[str := uid]> uniqueIdentifierCache) in
  match uniqueIdentifierCache !! str with
  | Some existing => if truthyString existing then (existing, uniqueIdentifierCache) else fresh
  | None => fresh
  end.

(** A build asks for the names of a sequence of keys, one call after the
    other, against one cache. *)
Fixpoint allocateAll (allocate : gmap string string → string → string * gmap string string)
    (cache : gmap string string) (keys : list string)
    : list string * gmap string string :=
  match keys with
  | [] => ([], cache)
  | key :: rest =>
      let '(name, cache') := allocate cache key in
      let '(names, cache'') := allocateAll allocate cache' rest in
      (name :: names, cache'')
  end.

(** The name derived from a key before any collision handling. *)
Definition deriveName (prefix suffix key : string) : string :=
  prefix +:+ replaceNonWord key +:+ suffix.

(** What both allocators do in one call: either the cached name is
    returned and the cache left alone, or the key is absent (or cached under
    the empty string) and a fresh name is stored and returned. *)
Definition allocatorStep (prefix suffix : string)
    (allocate : gmap string string → string → string * gmap string string) : Prop :=
  ∀ cache key,
    (∃ v, cache !! key = Some v ∧ allocate cache key = (v, cache))
    ∨ ((cache !! key = None ∨ cache !! key = Some "")
       ∧ let name := uniquify (cacheValues cache) (deriveName prefix suffix key) in
         allocate cache key = (name, <[key := name]> cache)).

(** The invariant of a cache filled by allocations only. *)
Record goodCache (prefix suffix : string) (cache : gmap string string) : Prop := {
  good_shape : ∀ k v, cache !! k = Some v →
    ∃ n, v = deriveName prefix suffix k +:+ underscores n;
  good_injective : ∀ k1 k2 v, cache !! k1 = Some v → cache !! k2 = Some v → k1 = k2;
  good_derived : ∀ k v, cache !! k = Some v →
    v = deriveName prefix suffix k
    ∨ ∃ k', k' ≠ k ∧ cache !! k' = Some (deriveName prefix suffix k);
}.

(** One execution of the collision loop: the candidate on entry, the number
    of rounds run, the candidate on exit. *)
Inductive whileCollides (values : list string) : string → nat → string → Prop :=
  | whileCollides_exit name :
      collides values name = false →
      whileCollides values name 0 name
  | whileCollides_round name rounds final :
      collides values name = true →
      whileCollides values (name +:+ "_") rounds final →
      whileCollides values name (S rounds) final.

(** The calls for the keys at indices [i] and [j] of a build's request
    sequence return two different names, both identifiers. *)
Definition distinctValidNames
    (allocate : gmap string string → string → string * gmap string string)
    (keys : list string) (i j : nat) : Prop :=
  ∃ ni nj,
    (allocateAll allocate ∅ keys).1 !! i = Some ni
    ∧ (allocateAll allocate ∅ keys).1 !! j = Some nj
    ∧ ni ≠ nj
    ∧ validIdentifier ni = true ∧ validIdentifier nj = true.

(** No key other than [key] holds the name derived from [key]. *)
Definition collisionFree (prefix suffix : string)
    (cache : gmap string string) (key : string) : Prop :=
  ∀ k, k ≠ key → cache !! k ≠ Some (deriveName prefix suffix key).

(** A second call for [key], after any further calls, returns what the
    first call returned. *)
Definition idempotentOn
    (allocate : gmap string string → string → string * gmap string string)
    (cache : gmap string string) (key : string) (others : list string) : Prop :=
  let first := allocate cache key in
  (allocate first.2 key).1 = first.1
  ∧ (allocate (allocateAll allocate first.2 others).2 key).1 = first.1.

(** The property that the name of a key does not depend on what was
    allocated before it. *)
Definition historyIndependent
    (allocate : gmap string string → string → string * gmap string string) : Prop :=
  ∀ (before1 before2 : list string) (key : string),
    (allocate (allocateAll allocate ∅ before1).2 key).1
    = (allocate (allocateAll allocate ∅ before2).2 key).1.

(** ** Chunk graph *)

(** The items of a Rollup output array.  A chunk carries its import list
    and, when it is the facade of an entry point, the id of that module; an
    asset has neither property. *)
Record OutputChunk := {
  chunkFileName : string;
  imports : list string;
  exports : list string;
  facadeModuleId : option string;
  code : string;
}.

Record OutputAsset := {
  assetFileName : string;
}.

Inductive OutputItem :=
  | ItemChunk (c : OutputChunk)
  | ItemAsset (a : OutputAsset).

Definition fileName (item : OutputItem) : string :=
  match item with
  | ItemChunk c => chunkFileName c
  | ItemAsset a => assetFileName a
  end.

(** [item.imports], [undefined] on an asset. *)
Definition itemImports (item : OutputItem) : option (list string) :=
  match item with
  | ItemChunk c => Some (imports c)
  | ItemAsset _ => None
  end.

(** [item.facadeModuleId], [undefined] on an asset and [null] on a chunk
    that is no facade. *)
Definition itemFacadeModuleId (item : OutputItem) : option string :=
  match item with
  | ItemChunk c => facadeModuleId c
  | ItemAsset _ => None
  end.

(** [codeSplitOutput.find(c => c.fileName === importee)] *)
Definition findByFileName (codeSplitOutput : list OutputItem) (importee : string)
    : option OutputItem :=
  List.find (λ c, String.eqb (fileName c) importee) codeSplitOutput.

(** [codeSplitOutput.find(chunk => chunk.facadeModuleId === entryModuleID)] *)
Definition findByFacade (codeSplitOutput : list OutputItem) (entryModuleID : string)
    : option OutputItem :=
  List.find
    (λ chunk, match itemFacadeModuleId chunk with
              | Some id => String.eqb id entryModuleID
              | None => false
              end)
    codeSplitOutput.

(** ** Load-order flattening *)

(** bin/exby.js, [flatImportList].  The recursion follows the import edges
    and is unbounded on a cyclic graph, so the model takes the call depth it
    may use.  Reading [chunk.imports.map] on an item without imports throws
    a [TypeError]. *)
Fixpoint flatImportList (fuel : nat) (codeSplitOutput : list OutputItem)
    (chunk : option OutputItem) : outcome (list string) :=
  match chunk with
  | None => Ok []
  | Some item =>
      match itemImports item with
      | None => Throw TypeError
      | Some importees =>
          match fuel with
          | 0 => OutOfFuel
          | S fuel' =>
              nestedImports ←
                mapM (λ importee,
                        flatImportList fuel' codeSplitOutput
                          (findByFileName codeSplitOutput importee))
                     importees ;;;
              Ok (concat nestedImports ++ [fileName item])
          end
      end
  end.

(** The call stack of the engine is bounded.  A call of [flatImportList]
    whose recursion needs more frames than the stack holds is aborted by
    Node with [RangeError: Maximum call stack size exceeded]; [stackDepth]
    is the number of nested calls the stack holds. *)
Definition flatImportListOnStack (stackDepth : nat)
    (codeSplitOutput : list OutputItem) (chunk : option OutputItem)
    : outcome (list string) :=
  match flatImportList stackDepth codeSplitOutput chunk with
  | OutOfFuel => Throw (RangeError "Maximum call stack size exceeded")
  | result => result
  end.

(** The loop that fills [dependencyMap] from [Object.entries(entryPoints)]. *)
Fixpoint buildDependencyMap (fuel : nat) (codeSplitOutput : list OutputItem)
    (entryPoints : list (string * string))
    (dependencyMap : gmap string (list string))
    : outcome (gmap string (list string)) :=
  match entryPoints with
  | [] => Ok dependencyMap
  | (entryPath, entryModuleID) :: rest =>
      let entryChunk := findByFacade codeSplitOutput entryModuleID in
      deps ← flatImportList fuel codeSplitOutput entryChunk ;;;
      buildDependencyMap fuel codeSplitOutput rest (<[entryPath := deps]> dependencyMap)
  end.

(** [a] directly imports [b]: the output item found under the name [a] is a
    chunk that lists [b]. *)
Definition importsDirectly (codeSplitOutput : list OutputItem) (a b : string) : Prop :=
  ∃ c, findByFileName codeSplitOutput a = Some (ItemChunk c) ∧ b ∈ imports c.

(** [a] imports [b], directly or transitively. *)
Definition importsTransitively (codeSplitOutput : list OutputItem) : relation string :=
  tc (importsDirectly codeSplitOutput).

Definition acyclic (codeSplitOutput : list OutputItem) : Prop :=
  ∀ a, ¬ importsTransitively codeSplitOutput a a.

(** No import names an asset. *)
Definition importsAreChunks (codeSplitOutput : list OutputItem) : Prop :=
  ∀ a b x, importsDirectly codeSplitOutput a b →
    findByFileName codeSplitOutput b ≠ Some (ItemAsset x).

(** No file at index [i] imports a file at a greater index. *)
Definition topologicallyOrdered (codeSplitOutput : list OutputItem)
    (l : list string) : Prop :=
  ∀ i j a b, l !! i = Some a → l !! j = Some b → i < j →
    ¬ importsTransitively codeSplitOutput a b.

(** Every file of the graph that the file at index [i] imports occurs at
    some smaller index. *)
Definition dependenciesPrecede (codeSplitOutput : list OutputItem)
    (l : list string) : Prop :=
  ∀ i a b, l !! i = Some a → importsTransitively codeSplitOutput a b →
    is_Some (findByFileName codeSplitOutput b) →
    ∃ j, j < i ∧ l !! j = Some b.

(** Every file of the graph that the file at index [i] imports directly
    occurs before index [i]. *)
Definition directDependenciesPrecede (codeSplitOutput : list OutputItem)
    (l : list string) : Prop :=
  ∀ i a b, l !! i = Some a → importsDirectly codeSplitOutput a b →
    is_Some (findByFileName codeSplitOutput b) → b ∈ take i l.

(** The two orderings a flattened list could be expected to have. *)
Definition flattenedTopologically : Prop :=
  ∀ g entry fuel l,
    acyclic g → importsAreChunks g →
    findByFileName g (chunkFileName entry) = Some (ItemChunk entry) →
    flatImportList fuel g (Some (ItemChunk entry)) = Ok l →
    topologicallyOrdered g l ∧ last l = Some (chunkFileName entry).

Definition flattenedWithoutRepeats : Prop :=
  ∀ g entry fuel l,
    acyclic g → importsAreChunks g →
    findByFileName g (chunkFileName entry) = Some (ItemChunk entry) →
    flatImportList fuel g (Some (ItemChunk entry)) = Ok l →
    NoDup l.

(** A sample graph: entry [a.js] imports [c.js] and [d.js], which both
    import [e.js]; entry [b.js] imports [f.js]. *)
Definition sampleChunk (name : string) (importees : list string)
    (facade : option string) : OutputChunk :=
  {| chunkFileName := name; imports := importees; exports := [];
     facadeModuleId := facade; code := "" |}.

Definition chunkA : OutputChunk :=
  sampleChunk "a.js" ["c.js"; "d.js"] (Some "/ext/a.js").
Definition chunkB : OutputChunk :=
  sampleChunk "b.js" ["f.js"] (Some "/ext/b.js").

Definition diamond : list OutputItem :=
  [ ItemChunk chunkA; ItemChunk chunkB;
    ItemChunk (sampleChunk "c.js" ["e.js"] None);
    ItemChunk (sampleChunk "d.js" ["e.js"] None);
    ItemChunk (sampleChunk "e.js" [] None);
    ItemChunk (sampleChunk "f.js" [] None) ].

Definition diamondRank (x : string) : nat :=
  if String.eqb x "a.js" then 2
  else if String.eqb x "b.js" || String.eqb x "c.js" || String.eqb x "d.js" then 1
  else 0.

(** A list that some call of [flatImportList] returns for a missing chunk
    or for a chunk that its own file name finds. *)
Definition flattenedFrom (codeSplitOutput : list OutputItem) (deps : list string) : Prop :=
  ∃ fuel chunk,
    (∀ item, chunk = Some item →
       findByFileName codeSplitOutput (fileName item) = Some item)
    ∧ flatImportList fuel codeSplitOutput chunk = Ok deps.

(** ** Manifest rewrite *)

(** [arr.indexOf(val)], [-1] when absent. *)
Fixpoint indexOfFrom (k : nat) (arr : list string) (val : string) : Z :=
  match arr with
  | [] => (-1)%Z
  | x :: rest => if String.eqb x val then Z.of_nat k else indexOfFrom (S k) rest val
  end.

Definition indexOf (arr : list string) (val : string) : Z := indexOfFrom 0 arr val.

(** [arr.filter((val, i, arr) => arr.indexOf(val) === i)] *)
Definition uniqueFilter (arr : list string) : list string :=
  (filter (λ iv, indexOf arr iv.2 = Z.of_nat iv.1) (imap (λ i val, (i, val)) arr)).*2.

(** [arr.splice(i, 1, ...items)]: for [i] past the end nothing is deleted
    and the items are appended. *)
Definition splice1 (arr : list string) (i : nat) (items : list string) : list string :=
  take i arr ++ items ++ drop (S i) arr.

(** The loop [for (let i = n - 1; i >= 0; i -= 1) js.splice(i, 1,
    ...dependencyMap[js[i]])]; the argument [n] is [i + 1].  An index
    outside the array reads [undefined], which as a property key is the
    string [undefined]; spreading a missing map entry throws. *)
Fixpoint rewriteLoop (dependencyMap : gmap string (list string))
    (n : nat) (js : list string) : outcome (list string) :=
  match n with
  | 0 => Ok js
  | S i =>
      match dependencyMap !! default "undefined" (js !! i) with
      | None => Throw TypeError
      | Some deps => rewriteLoop dependencyMap i (splice1 js i deps)
      end
  end.

(** The rewrite of one script list: substitution backwards, then the
    uniqueness filter. *)
Definition rewriteScripts (dependencyMap : gmap string (list string))
    (js : list string) : outcome (list string) :=
  js' ← rewriteLoop dependencyMap (length js) js ;;;
  Ok (uniqueFilter js').

Record ContentScript := {
  js : option (list string);
}.

Record Manifest := {
  content_scripts : option (list ContentScript);
  background : option (option (list string));
}.

Definition rewriteContentScript (dependencyMap : gmap string (list string))
    (contentScript : ContentScript) : outcome ContentScript :=
  match js contentScript with
  | None => Ok contentScript
  | Some scripts =>
      scripts' ← rewriteScripts dependencyMap scripts ;;;
      Ok {| js := Some scripts' |}
  end.

Definition rewriteManifest (dependencyMap : gmap string (list string))
    (manifest : Manifest) : outcome Manifest :=
  contentScripts ←
    mapM (rewriteContentScript dependencyMap)
         (default [] (content_scripts manifest)) ;;;
  bg ← match background manifest with
       | Some (Some scripts) =>
           scripts' ← rewriteScripts dependencyMap scripts ;;;
           Ok (Some (Some scripts'))
       | other => Ok other
       end ;;;
  Ok {| content_scripts := (λ _, contentScripts) <$> content_scripts manifest;
        background := bg |}.

(** The list without its repeats, first occurrences kept. *)
Fixpoint firstOccurrences (l : list string) : list string :=
  match l with
  | [] => []
  | x :: rest => x :: filter (λ y, y ≠ x) (firstOccurrences rest)
  end.

(** ** Scope rewriter: the IIFE arguments of the Babel plugin *)

(** The expressions the two argument templates can build. *)
Inductive expr :=
  | ThisMember (property : string)
  | AssignThisMember (property : string) (rhs : expr)
  | LogicalOr (lhs rhs : expr)
  | ObjectExpression.

(** [this.MODULE_ID = this.MODULE_ID || {}] *)
Definition exportArgumentTemplate (MODULE_ID : string) : expr :=
  AssignThisMember MODULE_ID (LogicalOr (ThisMember MODULE_ID) ObjectExpression).

(** [this.MODULE_ID] *)
Definition importArgumentTemplate (MODULE_ID : string) : expr :=
  ThisMember MODULE_ID.

(** What the plugin reads of the metadata Babel's module helper returns:
    whether the module has exports, the name of the exports parameter, and
    for each imported source its path and parameter name. *)
Record ModuleMetadata := {
  hasExports : bool;
  exportName : string;
  source : list (string * string);
}.

Record Iife := {
  iifeParamNames : list string;
  iifeArgs : list expr;
}.

(** The [for (const [sourcePath, {name}] of meta.source)] loop. *)
Fixpoint importArguments
    (generateUniqueIdentifier : gmap string string → string → string * gmap string string)
    (relativePath : string → string → string) (cwd : string)
    (sources : list (string * string)) (cache : gmap string string)
    : Iife * gmap string string :=
  match sources with
  | [] => ({| iifeParamNames := []; iifeArgs := [] |}, cache)
  | (sourcePath, name) :: rest =>
      let '(uid, cache') := generateUniqueIdentifier cache (relativePath cwd sourcePath) in
      let '(more, cache'') :=
        importArguments generateUniqueIdentifier relativePath cwd rest cache' in
      ({| iifeParamNames := name :: iifeParamNames more;
          iifeArgs := importArgumentTemplate uid :: iifeArgs more |}, cache'')
  end.

(** src/babelPlugin.js, [Program.exit], up to the construction of the
    parameter and argument lists.  [None] is the early return on code that
    is no module. *)
Definition programExit
    (generateUniqueIdentifier : gmap string string → string → string * gmap string string)
    (relativePath : string → string → string)
    (isModule : bool) (filename : option string) (cwd : string)
    (meta : ModuleMetadata) (cache : gmap string string)
    : outcome (option Iife * gmap string string) :=
  if negb isModule then Ok (None, cache)
  else
    match filename with
    | None => Throw (Error "Filename is required for this plugin")
    | Some filename =>
        let '(exportPart, cache1) :=
          if hasExports meta then
            let '(uid, cache1) := generateUniqueIdentifier cache (relativePath cwd filename) in
            ({| iifeParamNames := [exportName meta];
                iifeArgs := [exportArgumentTemplate uid] |}, cache1)
          else ({| iifeParamNames := []; iifeArgs := [] |}, cache) in
        let '(importPart, cache2) :=
          importArguments generateUniqueIdentifier relativePath cwd (source meta) cache1 in
        Ok (Some {| iifeParamNames := iifeParamNames exportPart ++ iifeParamNames importPart;
                    iifeArgs := iifeArgs exportPart ++ iifeArgs importPart |}, cache2)
    end.

(** *** Evaluation of the argument expressions in a script's global scope *)

(** [Program.exit] empties the directives of the program and moves them
    into the function ([path.node.directives = []]), so the arguments of the
    call are evaluated at the top level of a script, by code that is not
    strict; [this] is the global object there. *)

(** The property names every object literal inherits from
    [Object.prototype]. *)
Definition objectPrototypeKeys : list string :=
  [ "constructor"; "__defineGetter__"; "__defineSetter__"; "hasOwnProperty";
    "__lookupGetter__"; "__lookupSetter__"; "isPrototypeOf";
    "propertyIsEnumerable"; "toString"; "valueOf"; "__proto__";
    "toLocaleString" ].

(** Numbers are integers, [NaN] and [Infinity].  [VBuiltin name] is the
    object the global object inherits under [name]: its own prototype for
    [__proto__], a function for the other names of [objectPrototypeKeys]. *)
Inductive value :=
  | VUndefined
  | VNull
  | VBoolean (b : bool)
  | VNumber (n : Z)
  | VNaN
  | VInfinity
  | VString (s : string)
  | VObject (ref : nat)
  | VBuiltin (name : string).

Definition truthy (v : value) : bool :=
  match v with
  | VUndefined | VNull | VNaN => false
  | VBoolean b => b
  | VNumber n => negb (n =? 0)%Z
  | VString s => truthyString s
  | VInfinity | VObject _ | VBuiltin _ => true
  end.

(** The properties of the global object that assignments create and
    change (its own writable data properties), and the objects allocated so
    far, each with its own properties; an object reference is an index into
    [heap].  A writable data property the global object inherits from a
    prototype of the host reads and is assigned like a slot that is set from
    the start.  Accessors and read-only properties of the host's own (a
    window's [name] or [location]) are not represented; the statements about
    this evaluation are about the names of the default generator, which
    begin and end with two underscores. *)
Record GlobalScope := {
  slots : gmap string value;
  heap : list (gmap string value);
}.

(** The value properties of the global object the language defines: own
    properties that are neither writable nor configurable. *)
Definition globalConstant (property : string) : option value :=
  if String.eqb property "Infinity" then Some VInfinity
  else if String.eqb property "NaN" then Some VNaN
  else if String.eqb property "undefined" then Some VUndefined
  else None.

(** What the global object inherits from [Object.prototype]. *)
Definition inheritedProperty (property : string) : option value :=
  if bool_decide (property ∈ objectPrototypeKeys) then Some (VBuiltin property)
  else None.

(** [this.property] read: an own property first, then the prototype
    chain. *)
Definition getProperty (scope : GlobalScope) (property : string) : value :=
  match globalConstant property with
  | Some v => v
  | None =>
      match slots scope !! property with
      | Some v => v
      | None => default VUndefined (inheritedProperty property)
      end
  end.

(** [this.property = v] in code that is not strict.  A constant is left as
    it is, without an exception.  [__proto__], unless it is an own property,
    is the accessor of [Object.prototype]: its setter ignores a value that is
    neither an object nor [null] and has nothing to do when given the
    prototype the object already has; whether the prototype of the global
    object can be replaced is the host's choice (a window throws a
    [TypeError], Node's global object takes the new prototype) and is not
    followed: [None].  Any other assignment creates or updates an own
    property. *)
Definition putProperty (scope : GlobalScope) (property : string) (v : value)
    : option GlobalScope :=
  match globalConstant property with
  | Some _ => Some scope
  | None =>
      match slots scope !! property, String.eqb property "__proto__" with
      | None, true =>
          match v with
          | VNull | VObject _ => None
          | VBuiltin name => if String.eqb name "__proto__" then Some scope else None
          | _ => Some scope
          end
      | _, _ => Some {| slots := <[property := v]> (slots scope); heap := heap scope |}
      end
  end.

(** The value of an assignment is the value of its right-hand side, also
    when the assignment had no effect. *)
Fixpoint evalExpr (e : expr) (scope : GlobalScope) : option (value * GlobalScope) :=
  match e with
  | ThisMember property => Some (getProperty scope property, scope)
  | AssignThisMember property rhs =>
      match evalExpr rhs scope with
      | Some (v, scope') =>
          match putProperty scope' property v with
          | Some scope'' => Some (v, scope'')
          | None => None
          end
      | None => None
      end
  | LogicalOr lhs rhs =>
      match evalExpr lhs scope with
      | Some (v, scope') => if truthy v then Some (v, scope') else evalExpr rhs scope'
      | None => None
      end
  | ObjectExpression =>
      Some (VObject (length (heap scope)),
            {| slots := slots scope; heap := heap scope ++ [∅] |})
  end.

(** The names the plugin's default generator gives (prefix and suffix
    [__]): the derived name of a key, and underscores after it. *)
Definition defaultName (N : string) : Prop :=
  ∃ key n, N = deriveName "__" "__" key +:+ underscores n.

(** ** The output-count check after an IIFE build *)

(** The identifiers bound where the check stands in bin/exby.js: the
    declarations of the file that enclose it, and the globals of Node the
    file uses. *)
Definition declaredIdentifiers : list string :=
  [ "path"; "fs"; "yargs"; "rollup"; "nodeResolve"; "commonjs";
    "pathExists"; "varNameCache"; "globalExportsVariableName";
    "argv"; "manifestPath"; "stats"; "outputPath"; "manifest";
    "entryPoints"; "codeSplitBundle"; "codeSplitOutput"; "outputFiles";
    "chunk"; "iifeBundle"; "iifeOutput"; "flatImportList"; "dependencyMap";
    "require"; "process"; "console"; "JSON"; "Object"; "Promise"; "Error";
    "Map" ].

(** Reading an identifier inside a template literal.  [scope] gives the
    text each bound identifier renders as. *)
Definition readIdentifier (scope : gmap string string) (name : string)
    : outcome string :=
  match scope !! name with
  | Some text => Ok text
  | None => Throw (ReferenceError (name +:+ " is not defined"))
  end.

(** bin/exby.js,
    [if (iifeOutput.length !== 1) throw new Error(`IIFE build of ${chunkId}
    generated ${iifeOutput.length} outputs`)], followed by the read of
    [iifeOutput[0].code].  The template literal is evaluated before the
    [Error] is constructed. *)
Definition checkIifeOutput (scope : gmap string string)
    (iifeOutput : list string) : outcome string :=
  if bool_decide (length iifeOutput ≠ 1) then
    chunkId ← readIdentifier scope "chunkId" ;;;
    Throw (Error ("IIFE build of " +:+ chunkId +:+ " generated "
                  +:+ pretty (length iifeOutput) +:+ " outputs"))
  else Ok (default "" (head iifeOutput)).

(** The scope at the check, given the text each bound identifier renders
    as. *)
Definition scopeAtCheck (render : string → string) : gmap string string :=
  list_to_map ((λ name, (name, render name)) <$> declaredIdentifiers).

(** [s.startsWith(needle)] *)
Fixpoint isPrefixOf (needle s : string) : bool :=
  match needle, s with
  | EmptyString, _ => true
  | String a needle', String b s' => Ascii.eqb a b && isPrefixOf needle' s'
  | String _ _, EmptyString => false
  end.

(** [s.includes(needle)] *)
Fixpoint includes (s needle : string) : bool :=
  isPrefixOf needle s ||
  match s with
  | EmptyString => false
  | String _ s' => includes s' needle
  end.

(** The [message] of an exception; that of a [TypeError] is not modelled. *)
Definition errorMessage (e : JsError) : string :=
  match e with
  | TypeError => ""
  | ReferenceError message => message
  | RangeError message => message
  | Error message => message
  end.

(** ** Entry points of the manifest *)

(** Truthiness of [obj[key]] for an object literal [obj] whose own
    properties are strings: an own property counts when it is not the empty
    string, and an inherited one (a function or an object) always counts. *)
Definition propertyTruthy (obj : gmap string string) (key : string) : bool :=
  match obj !! key with
  | Some v => truthyString v
  | None => bool_decide (key ∈ objectPrototypeKeys)
  end.

(** [if (!entryPoints[scriptPath]) entryPoints[scriptPath] =
    path.resolve(manifestPath, '..', scriptPath)]; [resolve] stands for the
    path resolution against the manifest's directory. *)
Definition registerEntryPoint (resolve : string → string)
    (entryPoints : gmap string string) (scriptPath : string) : gmap string string :=
  if propertyTruthy entryPoints scriptPath then entryPoints
  else <[scriptPath := resolve scriptPath]> entryPoints.

(** bin/exby.js, the two loops that fill [entryPoints]: over the [js]
    lists of the content scripts, then over the background scripts. *)
Definition collectEntryPoints (resolve : string → string) (manifest : Manifest)
    : gmap string string :=
  let afterContentScripts :=
    foldl (λ entryPoints contentScript,
             foldl (registerEntryPoint resolve) entryPoints
                   (default [] (js contentScript)))
          ∅ (default [] (content_scripts manifest)) in
  match background manifest with
  | Some scripts =>
      foldl (registerEntryPoint resolve) afterContentScripts (default [] scripts)
  | None => afterContentScripts
  end.

(** Every script path the manifest names, in the order the loops visit
    them. *)
Definition scriptPaths (manifest : Manifest) : list string :=
  concat ((λ contentScript, default [] (js contentScript))
            <$> default [] (content_scripts manifest))
  ++ match background manifest with
     | Some scripts => default [] scripts
     | None => []
     end.

(** The simultaneous substitution of dependency lists for keys. *)
Definition substituteAll (dependencyMap : gmap string (list string))
    (js : list string) : list string :=
  concat ((λ key, default [] (dependencyMap !! key)) <$> js).

(** What the rewrite makes of a manifest when every script has a
    dependency list: in each execution context, the substituted and filtered
    list. *)
Definition rewrittenScripts (dependencyMap : gmap string (list string))
    (js : list string) : list string :=
  uniqueFilter (substituteAll dependencyMap js).

Definition rewrittenManifest (dependencyMap : gmap string (list string))
    (manifest : Manifest) : Manifest :=
  {| content_scripts :=
       (λ contentScripts : list ContentScript,
          (λ contentScript,
             {| js := rewrittenScripts dependencyMap <$> js contentScript |})
          <$> contentScripts)
       <$> content_scripts manifest;
     background :=
       (λ scripts : option (list string), rewrittenScripts dependencyMap <$> scripts)
       <$> background manifest |}.

(** The list [flatImportList] returns for the facade chunk of a module
    (empty when the traversal does not return). *)
Definition dependenciesOf (fuel : nat) (codeSplitOutput : list OutputItem)
    (entryModuleID : string) : list string :=
  match flatImportList fuel codeSplitOutput
          (findByFacade codeSplitOutput entryModuleID) with
  | Ok deps => deps
  | _ => []
  end.

(** ** The load hook of the IIFE build *)

(** [codeSplitOutput.find(c => c.type === 'chunk' && c.fileName === id)] *)
Definition findChunkByFileName (codeSplitOutput : list OutputItem) (id : string)
    : option OutputChunk :=
  match List.find (λ c, match c with
                        | ItemChunk chunk => String.eqb (chunkFileName chunk) id
                        | ItemAsset _ => false
                        end) codeSplitOutput with
  | Some (ItemChunk chunk) => Some chunk
  | _ => None
  end.

(** [list.join(sep)] on a list of strings. *)
Fixpoint join (sep : string) (l : list string) : string :=
  match l with
  | [] => ""
  | [x] => x
  | x :: rest => x +:+ sep +:+ join sep rest
  end.

Definition newline : string := String (ascii_of_nat 10) "".
Definition tab : string := String (ascii_of_nat 9) "".

(** The module text the load hook returns for an imported chunk. *)
Definition importStub (exportsString name : string) : string :=
  newline +:+ tab +:+ tab +:+ tab +:+ tab +:+ tab +:+ tab
  +:+ "const {" +:+ exportsString +:+ "} = " +:+ name +:+ ";"
  +:+ newline +:+ tab +:+ tab +:+ tab +:+ tab +:+ tab +:+ tab
  +:+ "export {" +:+ exportsString +:+ "};"
  +:+ newline +:+ tab +:+ tab +:+ tab +:+ tab +:+ tab.

(** bin/exby.js, the [load (id)] hook of the IIFE build of [chunk].
    Reading [exports] of a missing chunk throws before a name is
    allocated. *)
Definition loadHook (codeSplitOutput : list OutputItem) (chunk : OutputChunk)
    (id : string) (varNameCache : gmap string string)
    : outcome (string * gmap string string) :=
  if String.eqb id (chunkFileName chunk) then Ok (code chunk, varNameCache)
  else
    match findChunkByFileName codeSplitOutput id with
    | None => Throw TypeError
    | Some importedModule =>
        let exportsString := join "," (exports importedModule) in
        let '(name, varNameCache') := globalExportsVariableName varNameCache id in
        Ok (importStub exportsString name, varNameCache')
    end.

(** The load calls of one IIFE build, for the ids Rollup asks for, in the
    order it asks. *)
Fixpoint loadAll (codeSplitOutput : list OutputItem) (chunk : OutputChunk)
    (ids : list string) (varNameCache : gmap string string)
    : outcome (list string * gmap string string) :=
  match ids with
  | [] => Ok ([], varNameCache)
  | id :: rest =>
      loaded ← loadHook codeSplitOutput chunk id varNameCache ;;;
      more ← loadAll codeSplitOutput chunk rest loaded.2 ;;;
      Ok (loaded.1 :: more.1, more.2)
  end.

(** One round of the loop over the chunks, as far as names go: the loads of
    the build, then [name: globalExportsVariableName(chunk.fileName)] when
    the bundle is generated.  The result holds the loaded texts and the
    name. *)
Definition buildChunkNames (codeSplitOutput : list OutputItem)
    (job : OutputChunk * list string) (varNameCache : gmap string string)
    : outcome ((list string * string) * gmap string string) :=
  loaded ← loadAll codeSplitOutput job.1 job.2 varNameCache ;;;
  let '(name, varNameCache') :=
    globalExportsVariableName loaded.2 (chunkFileName job.1) in
  Ok ((loaded.1, name), varNameCache').

Fixpoint buildAllNames (codeSplitOutput : list OutputItem)
    (jobs : list (OutputChunk * list string)) (varNameCache : gmap string string)
    : outcome (list (list string * string) * gmap string string) :=
  match jobs with
  | [] => Ok ([], varNameCache)
  | job :: rest =>
      built ← buildChunkNames codeSplitOutput job varNameCache ;;;
      more ← buildAllNames codeSplitOutput rest built.2 ;;;
      Ok (built.1 :: more.1, more.2)
  end.

(** ** Names in the IIFE arguments *)

(** The property names an argument expression mentions. *)
Fixpoint exprProperties (e : expr) : list string :=
  match e with
  | ThisMember property => [property]
  | AssignThisMember property rhs => property :: exprProperties rhs
  | LogicalOr lhs rhs => exprProperties lhs ++ exprProperties rhs
  | ObjectExpression => []
  end.

(** A cache without an empty name: every entry is a hit for the plugin's
    truthiness test. *)
Definition allTruthy (cache : gmap string string) : Prop :=
  ∀ k v, cache !! k = Some v → truthyString v = true.

(** ** More sample graphs *)

(** Two chunks that import each other. *)
Definition chunkP : OutputChunk := sampleChunk "p.js" ["q.js"] (Some "/ext/p.js").

Definition mutualImports : list OutputItem :=
  [ ItemChunk chunkP; ItemChunk (sampleChunk "q.js" ["p.js"] None) ].

(** A chunk whose import names an asset of the same output. *)
Definition chunkM : OutputChunk :=
  sampleChunk "m.js" ["e.js"; "logo.png"] (Some "/ext/m.js").

Definition withAsset : list OutputItem :=
  [ ItemChunk chunkM; ItemChunk (sampleChunk "e.js" [] None);
    ItemAsset {| assetFileName := "logo.png" |} ].

Definition withAssetRank (x : string) : nat :=
  if String.eqb x "m.js" then 1 else 0.

(** The keys [Program.exit] asks names for, in the order it asks: the
    module's own file when it has exports, then its sources. *)
Definition moduleKeys (relativePath : string → string → string)
    (cwd filename : string) (meta : ModuleMetadata) : list string :=
  (if hasExports meta then [relativePath cwd filename] else [])
  ++ ((λ src : string * string, relativePath cwd src.1) <$> source meta).

(** The IIFE built for a module uses the global name [N] for the file
    [key]: as the slot its exports go to, or as the slot an import is read
    from. *)
Definition slotNameIn (relativePath : string → string → string)
    (cwd filename : string) (meta : ModuleMetadata) (iife : Iife)
    (key N : string) : Prop :=
  (hasExports meta = true ∧ key = relativePath cwd filename
   ∧ iifeArgs iife !! 0 = Some (exportArgumentTemplate N))
  ∨ (∃ i sourcePath name,
       source meta !! i = Some (sourcePath, name)
       ∧ key = relativePath cwd sourcePath
       ∧ iifeArgs iife !! ((if hasExports meta then 1 else 0) + i)
         = Some (importArgumentTemplate N)).

(** [path.relative(cwd, path)] on the paths of the samples, for a process
    that runs in [cwd]: an absolute path below [cwd] loses the directory, a
    path that starts with [./] is taken from [cwd]. *)
Definition sampleRelative (cwd path : string) : string :=
  if isPrefixOf (cwd +:+ "/") path then
    String.substring (String.length cwd + 1)
      (String.length path - (String.length cwd + 1)) path
  else if isPrefixOf "./" path then
    String.substring 2 (String.length path - 2) path
  else path.

(** ** A sample manifest *)

Definition sampleManifest : Manifest :=
  {| content_scripts := Some [ {| js := Some ["a.js"] |}; {| js := None |} ];
     background := Some (Some ["b.js"; "a.js"]) |}.

Definition sampleEntryPoints : list (string * string) :=
  [("a.js", "/ext/a.js"); ("b.js", "/ext/b.js")].

Definition sampleDependencyMap : gmap string (list string) :=
  <["b.js" := ["f.js"; "b.js"]]>
    (<["a.js" := ["e.js"; "c.js"; "e.js"; "d.js"; "a.js"]]> ∅).

(* ===================================================================== *)
(** * Part II: properties                                                 *)
(* ===================================================================== *)

(** ** Strings *)

Lemma append_nil_l s : "" +:+ s = s.
Proof. reflexivity. Qed.

Lemma append_cons c s1 s2 : String c s1 +:+ s2 = String c (s1 +:+ s2).
Proof. reflexivity. Qed.

Ltac simpl_append := rewrite ?append_cons, ?append_nil_l; simpl.

Lemma append_nil_r s : s +:+ "" = s.
Proof. induction s; simpl_append; congruence. Qed.

Lemma append_assoc s1 s2 s3 : (s1 +:+ s2) +:+ s3 = s1 +:+ s2 +:+ s3.
Proof. induction s1; simpl_append; congruence. Qed.

Lemma length_append s1 s2 :
  String.length (s1 +:+ s2) = String.length s1 + String.length s2.
Proof. induction s1; simpl_append; congruence. Qed.

Lemma length_underscores n : String.length (underscores n) = n.
Proof. induction n; simpl; congruence. Qed.

Lemma underscores_snoc s n : (s +:+ "_") +:+ underscores n = s +:+ underscores (S n).
Proof. by rewrite append_assoc. Qed.

Lemma append_underscores_inj s n m : s +:+ underscores n = s +:+ underscores m → n = m.
Proof.
  intros H%(f_equal String.length).
  rewrite !length_append, !length_underscores in H. lia.
Qed.

Lemma allChars_append p s1 s2 :
  allChars p (s1 +:+ s2) = allChars p s1 && allChars p s2.
Proof.
  induction s1 as [|c s1 IH]; simpl_append; [done|]. by rewrite IH, andb_assoc.
Qed.

Lemma isWordChar_part c : isWordChar c = true → isIdentifierPart c = true.
Proof.
  unfold isWordChar, isIdentifierPart, isIdentifierStart.
  destruct (isLetter c), (isDigit c), (isUnderscore c), (isDollar c); done.
Qed.

Lemma allChars_replaceNonWord str : allChars isIdentifierPart (replaceNonWord str) = true.
Proof.
  induction str as [|c str IH]; simpl; [done|].
  rewrite IH, andb_true_r. destruct (isWordChar c) eqn:Hc; [|done].
  by apply isWordChar_part.
Qed.

Lemma allChars_underscores n : allChars isIdentifierPart (underscores n) = true.
Proof. induction n; simpl; done. Qed.

Lemma replaceNonWord_length str : String.length (replaceNonWord str) = String.length str.
Proof. induction str; simpl; congruence. Qed.

Lemma isReservedWord_underscore s : isReservedWord (String "_" s) = false.
Proof. reflexivity. Qed.

(** A name that starts with an underscore and continues with identifier
    characters is an identifier. *)
Lemma validIdentifier_underscore s :
  allChars isIdentifierPart s = true → validIdentifier (String "_" s) = true.
Proof.
  intros Hs. unfold validIdentifier.
  by rewrite Hs, isReservedWord_underscore.
Qed.

(** ** The collision loop *)

Lemma collides_true values name : collides values name = true ↔ name ∈ values.
Proof.
  unfold collides. rewrite existsb_exists. split.
  - intros (v & Hv%list_elem_of_In & ->%String.eqb_eq). done.
  - intros Hin. exists name. rewrite <-list_elem_of_In, String.eqb_refl. done.
Qed.

Lemma collides_false values name : collides values name = false ↔ name ∉ values.
Proof. rewrite <-collides_true. by destruct (collides values name). Qed.

Lemma elem_of_cacheValues (cache : gmap string string) v :
  v ∈ cacheValues cache ↔ ∃ k, cache !! k = Some v.
Proof.
  unfold cacheValues. rewrite list_elem_of_fmap. split.
  - intros ([k v'] & -> & H%elem_of_map_to_list). by exists k.
  - intros [k Hk]. exists (k, v). by rewrite elem_of_map_to_list.
Qed.

Lemma length_cacheValues (cache : gmap string string) :
  length (cacheValues cache) = size cache.
Proof. unfold cacheValues. by rewrite length_fmap, length_map_to_list. Qed.

(** The function [uniquify] is the exit candidate of an execution of the
    loop. *)
Lemma uniquify_run values name :
  ∃ rounds, whileCollides values name rounds (uniquify values name).
Proof.
  funelim (uniquify values name).
  - match goal with IH : ∃ _, whileCollides _ _ _ _ |- _ =>
      destruct IH as [rounds Hrun] end.
    exists (S rounds). by constructor.
  - exists 0. by constructor.
Qed.

Lemma whileCollides_final values name rounds final :
  whileCollides values name rounds final →
  final = (name +:+ underscores rounds)
  ∧ (final ∉ values)
  ∧ (∀ m, m < rounds → (name +:+ underscores m) ∈ values).
Proof.
  induction 1 as [name Hfree|name rounds final Hcol _ (-> & Hfree & Hused)].
  - simpl. rewrite append_nil_r. split; [done|]. split; [|intros m Hm; lia].
    by apply collides_false.
  - rewrite underscores_snoc in *. split; [done|]. split; [done|].
    intros [|m] Hm.
    + simpl. rewrite append_nil_r. by apply collides_true.
    + rewrite <-underscores_snoc. apply Hused. lia.
Qed.

Lemma whileCollides_rounds values name rounds final :
  whileCollides values name rounds final → rounds ≤ length values.
Proof.
  intros (_ & _ & Hused)%whileCollides_final.
  trans (length ((λ m, name +:+ underscores m) <$> seq 0 rounds)).
  { by rewrite length_fmap, length_seq. }
  apply submseteq_length, NoDup_submseteq.
  - apply NoDup_fmap_2; [|apply NoDup_seq].
    intros m1 m2. apply append_underscores_inj.
  - intros x (m & -> & Hm%elem_of_seq)%list_elem_of_fmap. apply Hused. lia.
Qed.

Lemma uniquify_shape values name :
  ∃ n, uniquify values name = name +:+ underscores n.
Proof.
  destruct (uniquify_run values name) as [n Hrun].
  exists n. by apply whileCollides_final in Hrun as (-> & _).
Qed.

Lemma uniquify_fresh values name : uniquify values name ∉ values.
Proof.
  destruct (uniquify_run values name) as [n Hrun].
  by apply whileCollides_final in Hrun as (_ & ? & _).
Qed.

Lemma uniquify_free values name : name ∉ values → uniquify values name = name.
Proof.
  intros Hfree. destruct (uniquify_run values name) as [[|n] Hrun].
  - apply whileCollides_final in Hrun as (-> & _). simpl. apply append_nil_r.
  - apply whileCollides_final in Hrun as (_ & _ & Hused).
    destruct Hfree. specialize (Hused 0). simpl in Hused.
    rewrite append_nil_r in Hused. apply Hused. lia.
Qed.

(** ** Both allocators make allocator steps *)

Lemma globalExportsVariableName_step :
  allocatorStep exbyPrefix exbySuffix globalExportsVariableName.
Proof.
  intros cache key. unfold globalExportsVariableName, deriveName.
  destruct (cache !! key) as [v|]; [left; by exists v | right; auto].
Qed.

Lemma makeIdentifierGenerator_step prefix suffix :
  allocatorStep prefix suffix (makeIdentifierGenerator prefix suffix).
Proof.
  intros cache key. unfold makeIdentifierGenerator, deriveName.
  destruct (cache !! key) as [[|c v]|]; simpl; [right; auto | left; eauto | right; auto].
Qed.

Section AllocatorLaws.
Variables prefix suffix : string.
Variable allocate : gmap string string → string → string * gmap string string.
Hypothesis allocate_step : allocatorStep prefix suffix allocate.
Hypothesis prefix_underscore : ∃ rest, prefix = String "_" rest.

Lemma derived_nonempty k n : deriveName prefix suffix k +:+ underscores n ≠ "".
Proof.
  destruct prefix_underscore as [rest ->]. unfold deriveName. by simpl_append.
Qed.

Lemma goodCache_empty : goodCache prefix suffix ∅.
Proof. split; intros *; by rewrite lookup_empty. Qed.

(** In a good cache a call is a hit on the key's entry or stores a fresh
    name under an absent key. *)
Lemma good_step_cases cache key :
  goodCache prefix suffix cache →
  (cache !! key = Some (allocate cache key).1 ∧ (allocate cache key).2 = cache)
  ∨ (cache !! key = None
     ∧ (allocate cache key).1
       = uniquify (cacheValues cache) (deriveName prefix suffix key)
     ∧ (allocate cache key).2 = <[key := (allocate cache key).1]> cache).
Proof.
  intros Hgood.
  destruct (allocate_step cache key) as [(v & Hv & ->)|[[Hnone|Hempty] Heq]].
  - by left.
  - right. simpl in Heq. by rewrite Heq.
  - apply (good_shape _ _ _ Hgood) in Hempty as [n Hn].
    symmetry in Hn. by apply derived_nonempty in Hn.
Qed.

Lemma good_step cache key :
  goodCache prefix suffix cache → goodCache prefix suffix (allocate cache key).2.
Proof.
  intros Hgood.
  destruct (good_step_cases cache key Hgood) as [[_ ->]|(Hnone & Hname & ->)]; [done|].
  set (name := (allocate cache key).1) in *.
  assert (∀ k, cache !! k ≠ Some name) as Hfresh.
  { intros k Hk. apply (uniquify_fresh (cacheValues cache) (deriveName prefix suffix key)).
    rewrite <-Hname. apply elem_of_cacheValues. by exists k. }
  split.
  - intros k v. rewrite lookup_insert. case_decide as Hk; [|apply Hgood].
    intros [= <-]. subst k. rewrite Hname. apply uniquify_shape.
  - intros k1 k2 v. rewrite !lookup_insert.
    repeat case_decide; subst; try done.
    + intros [= <-] H2. by apply Hfresh in H2.
    + intros H1 [= <-]. by apply Hfresh in H1.
    + apply Hgood.
  - intros k v. rewrite lookup_insert. case_decide as Hk.
    + intros [= <-]. subst k.
      destruct (decide (deriveName prefix suffix key ∈ cacheValues cache)) as [Hin|Hout].
      * right. apply elem_of_cacheValues in Hin as [k' Hk'].
        exists k'. split; [congruence|].
        rewrite lookup_insert_ne; [done|congruence].
      * left. rewrite Hname. by apply uniquify_free.
    + intros Hv. destruct (good_derived _ _ _ Hgood k v Hv) as [->|(k' & Hne & Hk')];
        [by left|right].
      exists k'. split; [done|]. rewrite lookup_insert_ne; [done|congruence].
Qed.

Lemma good_step_lookup cache key :
  goodCache prefix suffix cache →
  (allocate cache key).2 !! key = Some (allocate cache key).1.
Proof.
  intros Hgood.
  destruct (good_step_cases cache key Hgood) as [[Hhit ->]|(_ & _ & ->)]; [done|].
  by rewrite lookup_insert_eq.
Qed.

Lemma good_step_mono cache key k v :
  goodCache prefix suffix cache →
  cache !! k = Some v → (allocate cache key).2 !! k = Some v.
Proof.
  intros Hgood Hk.
  destruct (good_step_cases cache key Hgood) as [[_ ->]|(Hnone & _ & ->)]; [done|].
  rewrite lookup_insert_ne; [done|congruence].
Qed.

Lemma allocateAll_good cache keys :
  goodCache prefix suffix cache →
  goodCache prefix suffix (allocateAll allocate cache keys).2.
Proof.
  revert cache. induction keys as [|key keys IH]; intros cache Hgood; simpl; [done|].
  pose proof (good_step cache key Hgood) as Hstep.
  destruct (allocate cache key) as [name cache'].
  specialize (IH cache' Hstep).
  by destruct (allocateAll allocate cache' keys).
Qed.

Lemma allocateAll_mono cache keys k v :
  goodCache prefix suffix cache →
  cache !! k = Some v → (allocateAll allocate cache keys).2 !! k = Some v.
Proof.
  revert cache. induction keys as [|key keys IH]; intros cache Hgood Hk; simpl; [done|].
  pose proof (good_step cache key Hgood) as Hstep.
  pose proof (good_step_mono cache key k v Hgood Hk) as Hmono.
  destruct (allocate cache key) as [name cache'].
  specialize (IH cache' Hstep Hmono).
  by destruct (allocateAll allocate cache' keys).
Qed.

(** The name returned by the [i]-th call is the final cache's entry for
    the [i]-th key. *)
Lemma allocateAll_lookup cache keys i key name :
  goodCache prefix suffix cache →
  keys !! i = Some key →
  (allocateAll allocate cache keys).1 !! i = Some name →
  (allocateAll allocate cache keys).2 !! key = Some name.
Proof.
  revert cache i. induction keys as [|key0 keys IH]; intros cache i Hgood Hkey; [done|].
  simpl.
  pose proof (good_step cache key0 Hgood) as Hstep.
  pose proof (good_step_lookup cache key0 Hgood) as Hlook.
  pose proof (allocateAll_mono (allocate cache key0).2 keys key0
                (allocate cache key0).1 Hstep Hlook) as Hmono.
  destruct (allocate cache key0) as [name0 cache']. simpl in *.
  specialize (IH cache').
  destruct (allocateAll allocate cache' keys) as [names cache''].
  destruct i as [|i]; simpl in *.
  - intros [= <-]. by simplify_eq.
  - by apply IH.
Qed.

Lemma allocateAll_length cache keys :
  length (allocateAll allocate cache keys).1 = length keys.
Proof.
  revert cache. induction keys as [|key keys IH]; intros cache; simpl; [done|].
  destruct (allocate cache key) as [name cache'].
  specialize (IH cache').
  destruct (allocateAll allocate cache' keys). simpl in *. by rewrite IH.
Qed.

(** Distinct keys get distinct names. *)
Lemma allocateAll_distinct keys i j ki kj ni nj :
  keys !! i = Some ki → keys !! j = Some kj →
  (allocateAll allocate ∅ keys).1 !! i = Some ni →
  (allocateAll allocate ∅ keys).1 !! j = Some nj →
  ki ≠ kj → ni ≠ nj.
Proof.
  intros Hki Hkj Hni Hnj Hne ->.
  apply Hne.
  eapply (good_injective _ _ _ (allocateAll_good ∅ keys goodCache_empty));
    eapply allocateAll_lookup; eauto using goodCache_empty.
Qed.

Hypothesis prefix_chars : allChars isIdentifierPart prefix = true.
Hypothesis suffix_chars : allChars isIdentifierPart suffix = true.

Lemma good_value_valid cache k v :
  goodCache prefix suffix cache → cache !! k = Some v → validIdentifier v = true.
Proof.
  intros Hgood Hv. apply (good_shape _ _ _ Hgood) in Hv as [n ->].
  assert (allChars isIdentifierPart (deriveName prefix suffix k +:+ underscores n) = true)
    as Hall.
  { unfold deriveName. rewrite !allChars_append, prefix_chars, suffix_chars,
      allChars_replaceNonWord, allChars_underscores. done. }
  revert Hall. destruct prefix_underscore as [rest ->]. unfold deriveName.
  simpl_append. intros Hall. by apply validIdentifier_underscore.
Qed.

Lemma allocateAll_valid keys i name :
  (allocateAll allocate ∅ keys).1 !! i = Some name → validIdentifier name = true.
Proof.
  intros Hname.
  destruct (keys !! i) as [key|] eqn:Hkey.
  - eapply good_value_valid; [apply (allocateAll_good ∅ keys goodCache_empty)|].
    eapply allocateAll_lookup; eauto using goodCache_empty.
  - apply lookup_ge_None in Hkey. apply lookup_lt_Some in Hname.
    rewrite allocateAll_length in Hname. lia.
Qed.

(** When no other key holds the derived name, the name of a key is the
    derived name. *)
Lemma good_step_derived cache key :
  goodCache prefix suffix cache →
  (∀ k, k ≠ key → cache !! k ≠ Some (deriveName prefix suffix key)) →
  (allocate cache key).1 = deriveName prefix suffix key.
Proof.
  intros Hgood Hfree.
  destruct (good_step_cases cache key Hgood) as [[Hhit _]|(Hnone & -> & _)].
  - destruct (good_derived _ _ _ Hgood _ _ Hhit) as [->|(k' & Hne & Hk')]; [done|].
    by apply Hfree in Hk'.
  - apply uniquify_free. intros [k Hk]%elem_of_cacheValues.
    apply (Hfree k); [congruence|done].
Qed.
End AllocatorLaws.

(** ** Allocator: the claims *)

(** C4.  Within one build (one cache, starting empty), the calls for two
    distinct chunk file names return distinct names, and each returned name
    is a valid JavaScript identifier.  This holds for
    [globalExportsVariableName] and for the Babel plugin's generator with its
    default prefix and suffix; the keys need not even be non-empty. *)
Theorem allocate_distinct_valid (keys : list string) (i j : nat) (ki kj : string) :
  keys !! i = Some ki → keys !! j = Some kj → ki ≠ kj →
  distinctValidNames globalExportsVariableName keys i j
  ∧ distinctValidNames (makeIdentifierGenerator "__" "__") keys i j.
Proof.
  intros Hki Hkj Hne.
  assert (∀ prefix suffix allocate,
    allocatorStep prefix suffix allocate →
    (∃ rest, prefix = String "_" rest) →
    allChars isIdentifierPart prefix = true →
    allChars isIdentifierPart suffix = true →
    distinctValidNames allocate keys i j) as Hgen.
  { intros prefix suffix allocate Hstep Hpre Hp Hs.
    destruct (lookup_lt_is_Some_2 (allocateAll allocate ∅ keys).1 i) as [ni Hni].
    { rewrite allocateAll_length. by eapply lookup_lt_Some. }
    destruct (lookup_lt_is_Some_2 (allocateAll allocate ∅ keys).1 j) as [nj Hnj].
    { rewrite allocateAll_length. by eapply lookup_lt_Some. }
    exists ni, nj. repeat split; try done.
    - by apply (allocateAll_distinct prefix suffix allocate Hstep Hpre keys i j ki kj).
    - by eapply (allocateAll_valid prefix suffix allocate Hstep Hpre).
    - by eapply (allocateAll_valid prefix suffix allocate Hstep Hpre). }
  split.
  - apply (Hgen exbyPrefix exbySuffix); [apply globalExportsVariableName_step|by eexists|done..].
  - apply (Hgen "__" "__"); [apply makeIdentifierGenerator_step|by eexists|done..].
Qed.

Lemma allocate_distinct_valid_witness :
  distinctValidNames globalExportsVariableName ["a.b"; "a_b"; "a.b"] 0 1
  ∧ distinctValidNames (makeIdentifierGenerator "__" "__") ["a.b"; "a_b"; "a.b"] 0 1.
Proof.
  apply (allocate_distinct_valid ["a.b"; "a_b"; "a.b"] 0 1 "a.b" "a_b");
    [reflexivity | reflexivity | discriminate].
Defined.

(** C5, as stated, fails: after ["a.b"] the key ["a_b"] is named
    [__EXBY_MODULE__a_b___], and with nothing allocated before it is named
    [__EXBY_MODULE__a_b__]. *)
Lemma allocate_history_dependent : ¬ historyIndependent globalExportsVariableName.
Proof.
  intros H. specialize (H ["a.b"] [] "a_b"). vm_compute in H. discriminate H.
Qed.

(** C5, amended.  The name of a key is the name derived from the key alone
    (prefix, sanitised key, suffix) whenever no other key holds that derived
    name when the key is asked for; two allocation histories that both leave
    the derived name free therefore agree on the key's name. *)
Theorem allocate_derived_when_free (before1 before2 : list string) (key : string) :
  let cache1 := (allocateAll globalExportsVariableName ∅ before1).2 in
  let cache2 := (allocateAll globalExportsVariableName ∅ before2).2 in
  collisionFree exbyPrefix exbySuffix cache1 key →
  collisionFree exbyPrefix exbySuffix cache2 key →
  (globalExportsVariableName cache1 key).1 = deriveName exbyPrefix exbySuffix key
  ∧ (globalExportsVariableName cache1 key).1 = (globalExportsVariableName cache2 key).1.
Proof.
  intros cache1 cache2 Hfree1 Hfree2.
  assert (∀ before,
    collisionFree exbyPrefix exbySuffix
      (allocateAll globalExportsVariableName ∅ before).2 key →
    (globalExportsVariableName (allocateAll globalExportsVariableName ∅ before).2 key).1
    = deriveName exbyPrefix exbySuffix key) as Hgen.
  { intros before Hfree.
    apply (good_step_derived exbyPrefix exbySuffix globalExportsVariableName
             globalExportsVariableName_step); [by eexists| |done].
    apply allocateAll_good; [apply globalExportsVariableName_step|by eexists|].
    apply goodCache_empty. }
  split; [by apply Hgen|].
  subst cache1 cache2. by rewrite !Hgen.
Qed.

Lemma allocate_derived_when_free_witness :
  (globalExportsVariableName
     (allocateAll globalExportsVariableName ∅ ["a.js"; "b.js"]).2 "lib/c.js").1
  = "__EXBY_MODULE__lib_c_js__"
  ∧ (globalExportsVariableName
       (allocateAll globalExportsVariableName ∅ ["a.js"; "b.js"]).2 "lib/c.js").1
    = (globalExportsVariableName
         (allocateAll globalExportsVariableName ∅ ["lib/c.js"; "d.js"]).2 "lib/c.js").1.
Proof.
  apply (allocate_derived_when_free ["a.js"; "b.js"] ["lib/c.js"; "d.js"] "lib/c.js").
  - intros k Hk.
    change (allocateAll globalExportsVariableName ∅ ["a.js"; "b.js"]).2
      with (<["b.js" := "__EXBY_MODULE__b_js__"]>
              (<["a.js" := "__EXBY_MODULE__a_js__"]> (∅ : gmap string string))).
    rewrite !lookup_insert. repeat case_decide; discriminate.
  - intros k Hk.
    change (allocateAll globalExportsVariableName ∅ ["lib/c.js"; "d.js"]).2
      with (<["d.js" := "__EXBY_MODULE__d_js__"]>
              (<["lib/c.js" := "__EXBY_MODULE__lib_c_js__"]> (∅ : gmap string string))).
    rewrite !lookup_insert. repeat case_decide; (discriminate || congruence).
Defined.

(** Entries that a call treats as hits survive every later call. *)
Lemma allocateAll_preserves
    (allocate : gmap string string → string → string * gmap string string)
    (kept : string → Prop) :
  (∀ cache key k v, cache !! k = Some v → kept v →
     (allocate cache key).2 !! k = Some v) →
  ∀ keys cache k v, cache !! k = Some v → kept v →
    (allocateAll allocate cache keys).2 !! k = Some v.
Proof.
  intros Hstep keys. induction keys as [|key keys IH]; intros cache k v Hk Hv; [done|].
  simpl. specialize (Hstep cache key k v Hk Hv).
  destruct (allocate cache key) as [name cache']. simpl in *.
  specialize (IH cache' k v Hstep Hv).
  by destruct (allocateAll allocate cache' keys).
Qed.

Lemma globalExportsVariableName_preserves cache key k v :
  cache !! k = Some v → (globalExportsVariableName cache key).2 !! k = Some v.
Proof.
  intros Hk. unfold globalExportsVariableName.
  destruct (cache !! key) eqn:Hkey; simpl; [done|].
  rewrite lookup_insert_ne; [done|congruence].
Qed.

Lemma globalExportsVariableName_stored cache key :
  (globalExportsVariableName cache key).2 !! key
  = Some (globalExportsVariableName cache key).1.
Proof.
  unfold globalExportsVariableName.
  destruct (cache !! key) eqn:Hkey; simpl; [done|]. by rewrite lookup_insert_eq.
Qed.

Lemma globalExportsVariableName_hit cache key v :
  cache !! key = Some v → globalExportsVariableName cache key = (v, cache).
Proof. intros Hkey. unfold globalExportsVariableName. by rewrite Hkey. Qed.

Lemma makeIdentifierGenerator_preserves prefix suffix cache key k v :
  cache !! k = Some v → truthyString v = true →
  (makeIdentifierGenerator prefix suffix cache key).2 !! k = Some v.
Proof.
  intros Hk Hv. unfold makeIdentifierGenerator.
  destruct (decide (key = k)) as [->|Hne].
  - by rewrite Hk, Hv.
  - destruct (cache !! key) as [existing|]; [destruct (truthyString existing)|];
      simpl; try done; by rewrite lookup_insert_ne.
Qed.

Lemma makeIdentifierGenerator_hit prefix suffix cache key v :
  cache !! key = Some v → truthyString v = true →
  makeIdentifierGenerator prefix suffix cache key = (v, cache).
Proof. intros Hkey Hv. unfold makeIdentifierGenerator. by rewrite Hkey, Hv. Qed.

Lemma replaceNonWord_truthy prefix suffix key n :
  key ≠ "" →
  truthyString (uniquify n (prefix +:+ replaceNonWord key +:+ suffix)) = true.
Proof.
  intros Hkey.
  destruct (uniquify_shape n (prefix +:+ replaceNonWord key +:+ suffix)) as [m ->].
  destruct (_ +:+ underscores m) eqn:Heq; [|done].
  apply (f_equal String.length) in Heq.
  rewrite !length_append, replaceNonWord_length in Heq.
  destruct key; [done|]. simpl in Heq. lia.
Qed.

Lemma makeIdentifierGenerator_stored prefix suffix cache key :
  key ≠ "" →
  (makeIdentifierGenerator prefix suffix cache key).2 !! key
  = Some (makeIdentifierGenerator prefix suffix cache key).1
  ∧ truthyString (makeIdentifierGenerator prefix suffix cache key).1 = true.
Proof.
  intros Hkey. unfold makeIdentifierGenerator.
  destruct (cache !! key) as [existing|] eqn:Hlook;
    [destruct (truthyString existing) eqn:Htruthy|]; simpl;
    rewrite ?lookup_insert_eq; auto using replaceNonWord_truthy.
Qed.

(** C6.  For a (non-empty) chunk file name, a second call, directly after
    the first or after any number of calls for other keys, returns the
    string the first call returned.  For [globalExportsVariableName] this
    holds from any cache; for the Babel plugin's generator from any cache
    and with any prefix and suffix. *)
Theorem allocate_idempotent (key : string) (others : list string) :
  key ≠ "" →
  (∀ cache, idempotentOn globalExportsVariableName cache key others)
  ∧ (∀ prefix suffix cache,
       idempotentOn (makeIdentifierGenerator prefix suffix) cache key others).
Proof.
  intros Hkey. split.
  - intros cache. unfold idempotentOn.
    pose proof (globalExportsVariableName_stored cache key) as Hstored.
    split.
    + by rewrite (globalExportsVariableName_hit _ _ _ Hstored).
    + erewrite globalExportsVariableName_hit; [done|].
      apply (allocateAll_preserves _ (λ _, True)); [|done..].
      intros. by apply globalExportsVariableName_preserves.
  - intros prefix suffix cache. unfold idempotentOn.
    destruct (makeIdentifierGenerator_stored prefix suffix cache key Hkey)
      as [Hstored Htruthy].
    split.
    + by rewrite (makeIdentifierGenerator_hit _ _ _ _ _ Hstored Htruthy).
    + erewrite makeIdentifierGenerator_hit; [done| |done].
      apply (allocateAll_preserves _ (λ v, truthyString v = true)); [|done..].
      intros. by apply makeIdentifierGenerator_preserves.
Qed.

Lemma allocate_idempotent_witness :
  (∀ cache, idempotentOn globalExportsVariableName cache "a.js" ["a_js"; "b.js"])
  ∧ (∀ prefix suffix cache,
       idempotentOn (makeIdentifierGenerator prefix suffix) cache "a.js" ["a_js"; "b.js"]).
Proof. apply (allocate_idempotent "a.js" ["a_js"; "b.js"]). discriminate. Defined.

(** The precondition of C6 is needed by the plugin's generator only, and
    only with an empty prefix and suffix: the empty key is then cached under
    the empty name, which the truthiness test takes for a miss. *)
Example makeIdentifierGenerator_empty_key :
  (allocateAll (makeIdentifierGenerator "" "") ∅ [""; ""]).1 = [""; "_"].
Proof. vm_compute. reflexivity. Qed.

(** C10.  The collision loop terminates from every candidate name and every
    cache: it exits after at most as many rounds as the cache has entries,
    with the candidate [uniquify] returns. *)
Theorem collision_loop_terminates (cache : gmap string string) (name : string) :
  ∃ rounds,
    rounds ≤ size cache
    ∧ whileCollides (cacheValues cache) name rounds (uniquify (cacheValues cache) name)
    ∧ uniquify (cacheValues cache) name = name +:+ underscores rounds.
Proof.
  destruct (uniquify_run (cacheValues cache) name) as [rounds Hrun].
  exists rounds. split; [|split; [done|]].
  - rewrite <-length_cacheValues. by eapply whileCollides_rounds.
  - by apply whileCollides_final in Hrun as (? & _).
Qed.

Lemma elem_of_maxLength values name :
  name ∈ values → String.length name ≤ maxLength values.
Proof.
  induction values as [|val values IH]; [by intros ?%elem_of_nil|].
  intros [->|Hin]%elem_of_cons; simpl; [lia|]. specialize (IH Hin). lia.
Qed.

(** Each round lengthens the candidate, and no round starts from a
    candidate longer than every cached value. *)
Lemma collision_loop_length values name rounds final :
  whileCollides values name rounds final →
  String.length final = String.length name + rounds
  ∧ (0 < rounds → String.length final ≤ S (maxLength values)).
Proof.
  induction 1 as [name Hfree|name rounds final Hcol Hrun [IHlen IHmax]].
  - split; lia.
  - rewrite length_append in IHlen. simpl in IHlen. split; [lia|]. intros _.
    destruct rounds as [|rounds]; [|apply IHmax; lia].
    inversion Hrun; subst.
    apply collides_true, elem_of_maxLength in Hcol.
    rewrite length_append. simpl. lia.
Qed.

Example allocate_examples :
  (allocateAll globalExportsVariableName ∅ ["a.b"; "a_b"; "a.b"; "src/x-1.js"]).1
  = ["__EXBY_MODULE__a_b__"; "__EXBY_MODULE__a_b___"; "__EXBY_MODULE__a_b__";
     "__EXBY_MODULE__src_x_1_js__"].
Proof. vm_compute. reflexivity. Qed.

Example validIdentifier_examples :
  validIdentifier "__EXBY_MODULE__a_b__" = true ∧ validIdentifier "1a" = false
  ∧ validIdentifier "if" = false.
Proof. vm_compute. done. Qed.

(** ** Traversals that may throw *)

Lemma mapM_Ok {A B} (f : A → outcome B) l ys :
  mapM f l = Ok ys ↔ Forall2 (λ x y, f x = Ok y) l ys.
Proof.
  revert ys. induction l as [|x l IH]; intros ys; simpl.
  - split; [intros [= <-]; constructor | by intros ->%Forall2_nil_inv_l].
  - destruct (f x) as [y| |] eqn:Hx; simpl.
    + destruct (mapM f l) as [ys'| |] eqn:Hl; simpl.
      * split.
        -- intros [= <-]. constructor; [done|]. by apply IH.
        -- intros (y' & ys'' & Hy & Hys & ->)%Forall2_cons_inv_l.
           apply IH in Hys. congruence.
      * split; [done|].
        intros (y' & ys'' & _ & Hys%IH & _)%Forall2_cons_inv_l. done.
      * split; [done|].
        intros (y' & ys'' & _ & Hys%IH & _)%Forall2_cons_inv_l. done.
    + split; [done|]. intros (y' & ys'' & Hy & _)%Forall2_cons_inv_l. congruence.
    + split; [done|]. intros (y' & ys'' & Hy & _)%Forall2_cons_inv_l. congruence.
Qed.

Lemma mapM_OutOfFuel {A B} (f : A → outcome B) l :
  mapM f l = OutOfFuel → ∃ x, x ∈ l ∧ f x = OutOfFuel.
Proof.
  induction l as [|x l IH]; simpl; [done|].
  destruct (f x) as [y| |] eqn:Hx; simpl; [|done|].
  - destruct (mapM f l) as [ys| |]; simpl; try done.
    intros _. destruct IH as (x' & Hin & Hx'); [done|].
    exists x'. split; [by right|done].
  - intros _. exists x. split; [by left|done].
Qed.

Lemma mapM_Throw {A B} (f : A → outcome B) l e :
  mapM f l = Throw e → ∃ x, x ∈ l ∧ f x = Throw e.
Proof.
  induction l as [|x l IH]; simpl; [done|].
  destruct (f x) as [y| |] eqn:Hx; simpl; [| |done].
  - destruct (mapM f l) as [ys| |]; simpl; try done.
    intros [= <-]. destruct IH as (x' & Hin & Hx'); [done|].
    exists x'. split; [by right|done].
  - intros [= <-]. exists x. split; [by left|done].
Qed.

(** ** The chunk graph *)

Lemma findByFileName_Some g importee item :
  findByFileName g importee = Some item → fileName item = importee ∧ item ∈ g.
Proof.
  intros [Hin Heq]%find_some. split.
  - by apply String.eqb_eq.
  - by apply list_elem_of_In.
Qed.

Lemma findByFileName_self g importee item :
  findByFileName g importee = Some item → findByFileName g (fileName item) = Some item.
Proof. intros H. by destruct (findByFileName_Some _ _ _ H) as [-> _]. Qed.

Lemma importsDirectly_source g a b :
  importsDirectly g a b → a ∈ fileName <$> g.
Proof.
  intros (c & [<- Hin]%findByFileName_Some & _).
  apply list_elem_of_fmap. by exists (ItemChunk c).
Qed.

Lemma importsTransitively_source g a b :
  importsTransitively g a b → ∃ c, findByFileName g a = Some (ItemChunk c).
Proof. intros H. destruct H as [?? (c & Hc & _)|??? (c & Hc & _) _]; by exists c. Qed.

(** A numbering that decreases along every import edge rules out cycles. *)
Lemma ranked_acyclic g (rank : string → nat) :
  (∀ a b, importsDirectly g a b → rank b < rank a) → acyclic g.
Proof.
  intros Hrank.
  assert (∀ a b, importsTransitively g a b → rank b < rank a) as Htc.
  { induction 1 as [a b H|a b c H _ IH]; [by apply Hrank|].
    apply Hrank in H. lia. }
  intros a Ha%Htc. lia.
Qed.

Lemma noAssets_importsAreChunks g :
  (∀ item, item ∈ g → ∃ c, item = ItemChunk c) → importsAreChunks g.
Proof.
  intros Hg a b x _ [_ Hin]%findByFileName_Some.
  by destruct (Hg _ Hin).
Qed.

(** A path of [n] import edges visits [n] distinct sources when the graph
    is acyclic, so it is no longer than the graph. *)
Lemma nsteps_sources g n a z :
  nsteps (importsDirectly g) n a z →
  ∃ l, length l = n
    ∧ (∀ x, x ∈ l → x ∈ fileName <$> g ∧ rtc (importsDirectly g) a x)
    ∧ (∀ i j x y, l !! i = Some x → l !! j = Some y → i < j →
         importsTransitively g x y).
Proof.
  induction 1 as [a|n a b z Hab _ (l & Hlen & Hin & Hord)].
  - exists []. split; [done|]. split; [by intros ? ?%elem_of_nil|done].
  - exists (a :: l). split; [simpl; by rewrite Hlen|]. split.
    + intros x [->|Hx]%elem_of_cons.
      * split; [by eapply importsDirectly_source|done].
      * destruct (Hin x Hx) as [? Hrtc]. split; [done|]. by eapply rtc_l.
    + intros [|i] [|j] x y Hx Hy Hij; simpl in *; try lia.
      * simplify_eq. destruct (Hin y) as [_ Hrtc].
        { by eapply list_elem_of_lookup_2. }
        by eapply tc_rtc_r; [apply tc_once|].
      * eapply Hord; [done..|lia].
Qed.

Lemma acyclic_path_length g n a z :
  acyclic g → nsteps (importsDirectly g) n a z → n ≤ length g.
Proof.
  intros Hacyclic (l & <- & Hin & Hord)%nsteps_sources.
  rewrite <-(length_fmap fileName g).
  apply submseteq_length, NoDup_submseteq; [|intros x Hx; by apply Hin].
  apply NoDup_alt. intros i j x Hi Hj.
  destruct (Nat.lt_trichotomy i j) as [Hlt|[->|Hlt]]; [|done|].
  - destruct (Hacyclic x). apply (Hord i j x x Hi Hj Hlt).
  - destruct (Hacyclic x). apply (Hord j i x x Hj Hi Hlt).
Qed.

(** ** Load-order flattening *)

Lemma directDependenciesPrecede_nil g : directDependenciesPrecede g [].
Proof. by intros i a b ?. Qed.

Lemma directDependenciesPrecede_app g l1 l2 :
  directDependenciesPrecede g l1 → directDependenciesPrecede g l2 →
  directDependenciesPrecede g (l1 ++ l2).
Proof.
  intros H1 H2 i a b Hi Hab Hb.
  destruct (decide (i < length l1)) as [Hlt|Hge].
  - rewrite lookup_app_l in Hi by done.
    rewrite take_app_le by lia. by eapply H1.
  - rewrite lookup_app_r in Hi by lia.
    rewrite take_app_ge by lia. apply elem_of_app. right. by eapply H2.
Qed.

Lemma directDependenciesPrecede_concat g ls :
  Forall (directDependenciesPrecede g) ls → directDependenciesPrecede g (concat ls).
Proof.
  induction 1; simpl;
    [apply directDependenciesPrecede_nil | by apply directDependenciesPrecede_app].
Qed.

Lemma directDependenciesPrecede_snoc g l a :
  directDependenciesPrecede g l →
  (∀ b, importsDirectly g a b → is_Some (findByFileName g b) → b ∈ l) →
  directDependenciesPrecede g (l ++ [a]).
Proof.
  intros Hl Ha i a' b Hi Hab Hb.
  destruct (decide (i < length l)) as [Hlt|Hge].
  - rewrite lookup_app_l in Hi by done.
    rewrite take_app_le by lia. by eapply Hl.
  - rewrite lookup_app_r in Hi by lia.
    apply list_lookup_singleton_Some in Hi as [Hi <-].
    rewrite take_app_length' by lia. by apply Ha.
Qed.

(** Direct dependencies before each index give transitive ones too. *)
Lemma directDependenciesPrecede_transitive g l :
  directDependenciesPrecede g l → dependenciesPrecede g l.
Proof.
  intros Hl i a b Hi Hab Hb. revert i Hi.
  induction Hab as [a b Hab|a c b Hac Hcb IH]; intros i Hi.
  - specialize (Hl i a b Hi Hab Hb). apply elem_of_take in Hl as (j & Hj & Hlt).
    by exists j.
  - destruct (importsTransitively_source g c b Hcb) as [cc Hcc].
    assert (c ∈ take i l) as (j & Hj & Hlt)%elem_of_take.
    { eapply Hl; [done..|]. by rewrite Hcc. }
    destruct (IH Hb j Hj) as (j' & Hlt' & Hj').
    exists j'. split; [lia|done].
Qed.

Lemma flatImportList_Ok_inv fuel g chunk l :
  flatImportList fuel g chunk = Ok l →
  (chunk = None ∧ l = [])
  ∨ ∃ fuel' c nestedImports,
      fuel = S fuel' ∧ chunk = Some (ItemChunk c)
      ∧ Forall2 (λ importee deps,
                   flatImportList fuel' g (findByFileName g importee) = Ok deps)
                (imports c) nestedImports
      ∧ l = concat nestedImports ++ [chunkFileName c].
Proof.
  destruct chunk as [[c|a]|]; [| |destruct fuel; simpl; intros [= <-]; by left].
  - destruct fuel as [|fuel']; [done|]. simpl.
    destruct (mapM _ (imports c)) as [nested| |] eqn:Hmap; simpl; [|done..].
    intros [= <-]. right. exists fuel', c, nested.
    repeat split; try done. by apply mapM_Ok.
  - by destruct fuel.
Qed.

(** What a returned list contains: the start file last, before it only
    files the start file imports, all of them files of the graph, and the
    direct dependencies of each element before it. *)
Lemma flatImportList_facts fuel g chunk l :
  (∀ item, chunk = Some item → findByFileName g (fileName item) = Some item) →
  flatImportList fuel g chunk = Ok l →
  directDependenciesPrecede g l
  ∧ (∀ x, x ∈ l → is_Some (findByFileName g x))
  ∧ match chunk with
    | None => l = []
    | Some item =>
        ∃ l', l = l' ++ [fileName item]
          ∧ ∀ x, x ∈ l' → importsTransitively g (fileName item) x
    end.
Proof.
  revert chunk l. induction fuel as [|fuel IH]; intros chunk l Hself Hflat;
    apply flatImportList_Ok_inv in Hflat
      as [[-> ->]|(fuel' & c & nested & Hfuel & -> & Hnested & ->)];
    try (split; [apply directDependenciesPrecede_nil|];
         split; [by intros ? ?%elem_of_nil|done]);
    [done|].
  injection Hfuel as <-.
  specialize (Hself _ eq_refl). simpl in Hself.
  assert (Forall (directDependenciesPrecede g) nested
          ∧ (∀ x, x ∈ concat nested →
               is_Some (findByFileName g x)
               ∧ importsTransitively g (chunkFileName c) x)
          ∧ (∀ b, b ∈ imports c → is_Some (findByFileName g b) → b ∈ concat nested))
    as (Hclosed & Helems & Hdirect).
  { assert (∀ b, b ∈ imports c → importsDirectly g (chunkFileName c) b) as Hedge.
    { intros b Hb. by exists c. }
    revert Hedge Hnested. generalize (imports c) as importees.
    intros importees Hedge Hnested.
    induction Hnested as [|importee deps rest nestedRest Hdeps _ IHn]; simpl.
    - split; [constructor|]. split; [by intros ? ?%elem_of_nil|].
      by intros ? ?%elem_of_nil.
    - destruct IHn as (IH1 & IH2 & IH3).
      { intros b Hb. apply Hedge. by right. }
      destruct (IH _ deps (findByFileName_self g importee) Hdeps)
        as (Hd1 & Hd2 & Hd3).
      assert (importsDirectly g (chunkFileName c) importee) as Himp.
      { apply Hedge. by left. }
      split; [by constructor|]. split.
      + intros x [Hx|Hx]%elem_of_app; [|by apply IH2].
        split; [by apply Hd2|].
        destruct (findByFileName g importee) as [item|] eqn:Hfind.
        * destruct Hd3 as (l' & -> & Hl').
          apply findByFileName_Some in Hfind as [Hname _]. rewrite Hname in *.
          apply elem_of_app in Hx as [Hx|Hx%list_elem_of_singleton].
          -- eapply tc_l; [done|]. by apply Hl'.
          -- subst x. by apply tc_once.
        * subst deps. by apply elem_of_nil in Hx.
      + intros b [->|Hb]%elem_of_cons Hres; apply elem_of_app; [left|right; by apply IH3].
        destruct Hres as [item Hfind]. rewrite Hfind in Hd3.
        destruct Hd3 as (l' & -> & _).
        apply findByFileName_Some in Hfind as [Hname _]. rewrite Hname.
        apply elem_of_app. right. by apply list_elem_of_singleton. }
  split; [|split].
  - apply directDependenciesPrecede_snoc; [by apply directDependenciesPrecede_concat|].
    intros b (c' & Hc' & Hb) Hres. apply Hdirect; [|done].
    rewrite Hself in Hc'. by simplify_eq.
  - intros x [Hx|Hx%list_elem_of_singleton]%elem_of_app; [by apply Helems|].
    subst x. by rewrite Hself.
  - exists (concat nested). split; [done|]. intros x Hx. by apply Helems.
Qed.

(** More call depth does not change a returned list. *)
Lemma flatImportList_fuel_mono fuel fuel' g chunk l :
  flatImportList fuel g chunk = Ok l → fuel ≤ fuel' →
  flatImportList fuel' g chunk = Ok l.
Proof.
  revert fuel' chunk l. induction fuel as [|fuel IH]; intros fuel' chunk l Hflat Hle;
    apply flatImportList_Ok_inv in Hflat
      as [[-> ->]|(fuel0 & c & nested & Hfuel & -> & Hnested & ->)];
    try (by destruct fuel').
  injection Hfuel as <-.
  destruct fuel' as [|fuel']; [lia|]. simpl.
  assert (mapM (λ importee, flatImportList fuel' g (findByFileName g importee))
            (imports c) = Ok nested) as ->; [|done].
  apply mapM_Ok. eapply Forall2_impl; [done|].
  intros importee deps Hdeps. apply (IH fuel' _ _ Hdeps). lia.
Qed.

Lemma flatImportList_deterministic fuel1 fuel2 g chunk l1 l2 :
  flatImportList fuel1 g chunk = Ok l1 → flatImportList fuel2 g chunk = Ok l2 →
  l1 = l2.
Proof.
  intros H1 H2.
  apply (flatImportList_fuel_mono _ (fuel1 `max` fuel2)) in H1; [|lia].
  apply (flatImportList_fuel_mono _ (fuel1 `max` fuel2)) in H2; [|lia].
  congruence.
Qed.

(** When the imports of chunks name chunks only, the traversal of a chunk
    of the graph reads [imports] on chunks only and does not throw. *)
Lemma flatImportList_no_throw fuel g chunk e :
  importsAreChunks g →
  (∀ item, chunk = Some item →
     ∃ c, item = ItemChunk c ∧ findByFileName g (chunkFileName c) = Some item) →
  flatImportList fuel g chunk ≠ Throw e.
Proof.
  intros Hchunks. revert chunk e.
  induction fuel as [|fuel IH]; intros chunk e Hself;
    (destruct chunk as [item|]; [|done]);
    destruct (Hself item eq_refl) as (c & -> & Hfind); [done|].
  simpl.
  destruct (mapM _ (imports c)) as [nested|e'|] eqn:Hmap; simpl; [done| |done].
  apply mapM_Throw in Hmap as (b & Hb & Hthrow).
  intros _. apply (IH (findByFileName g b) e'); [|done].
  intros item Hitem.
  destruct item as [c'|a].
  - exists c'. split; [done|]. by apply findByFileName_self in Hitem.
  - destruct (Hchunks (chunkFileName c) b a); [|done]. by exists c.
Qed.

(** Running out of call depth exhibits a path of import edges as long as
    the depth that was granted. *)
Lemma flatImportList_out_of_fuel fuel g item :
  findByFileName g (fileName item) = Some item →
  flatImportList fuel g (Some item) = OutOfFuel →
  ∃ z, nsteps (importsDirectly g) fuel (fileName item) z.
Proof.
  revert item. induction fuel as [|fuel IH]; intros item Hself Hflat.
  - eexists. constructor.
  - destruct item as [c|a]; [|done]. simpl in *.
    destruct (mapM _ (imports c)) as [nested|e'|] eqn:Hmap; simpl in *; [done..|].
    apply mapM_OutOfFuel in Hmap as (b & Hb & Hout).
    destruct (findByFileName g b) as [item'|] eqn:Hfind; [|by destruct fuel].
    destruct (IH item') as [z Hz]; [by eapply findByFileName_self|done|].
    apply findByFileName_Some in Hfind as [Hname _]. rewrite Hname in Hz.
    exists z. eapply nsteps_l; [|done]. by exists c.
Qed.

(** On an acyclic graph a call depth beyond the number of output items is
    enough for the traversal to return. *)
Lemma flatImportList_returns g entry :
  acyclic g → importsAreChunks g →
  findByFileName g (chunkFileName entry) = Some (ItemChunk entry) →
  ∃ l, ∀ fuel, length g < fuel →
    flatImportList fuel g (Some (ItemChunk entry)) = Ok l.
Proof.
  intros Hacyclic Hchunks Hself.
  destruct (flatImportList (S (length g)) g (Some (ItemChunk entry)))
    as [l|e|] eqn:Hflat.
  - exists l. intros fuel Hfuel. eapply flatImportList_fuel_mono; [done|lia].
  - destruct (flatImportList_no_throw (S (length g)) g (Some (ItemChunk entry)) e);
      [done| |done].
    intros item [= <-]. by exists entry.
  - apply flatImportList_out_of_fuel in Hflat as [z Hz]; [|done].
    apply acyclic_path_length in Hz; [lia|done].
Qed.

(** ** The uniqueness filter *)

Lemma indexOfFrom_skip k p s val :
  val ∉ p → indexOfFrom k (p ++ s) val = indexOfFrom (k + length p) s val.
Proof.
  revert k. induction p as [|x p IH]; intros k Hval; simpl.
  - by rewrite Nat.add_0_r.
  - apply not_elem_of_cons in Hval as [Hne Hval].
    destruct (String.eqb_spec x val) as [->|_]; [done|].
    rewrite IH by done. f_equal. lia.
Qed.

Lemma indexOfFrom_found k p s val :
  val ∈ p → (indexOfFrom k (p ++ s) val < Z.of_nat (k + length p))%Z.
Proof.
  revert k. induction p as [|x p IH]; intros k Hval; simpl.
  - by apply elem_of_nil in Hval.
  - destruct (String.eqb_spec x val) as [->|Hne]; [lia|].
    apply elem_of_cons in Hval as [->|Hval]; [done|].
    specialize (IH (S k) Hval). lia.
Qed.

Lemma indexOf_first p x s :
  indexOf (p ++ x :: s) x = Z.of_nat (length p) ↔ x ∉ p.
Proof.
  unfold indexOf. split.
  - intros Hidx Hin. pose proof (indexOfFrom_found 0 p (x :: s) x Hin). simpl in *. lia.
  - intros Hout. rewrite indexOfFrom_skip by done. simpl.
    by rewrite String.eqb_refl.
Qed.

Lemma filter_not_elem_of_snoc (p : list string) x (l : list string) :
  filter (λ y, y ∉ p ++ [x]) l = filter (λ y, y ∉ p) (filter (λ y, y ≠ x) l).
Proof.
  rewrite list_filter_filter. apply list_filter_iff. intros y.
  rewrite not_elem_of_app, list_elem_of_singleton. done.
Qed.

Lemma uniqueFilter_suffix p s :
  (filter (λ iv : nat * string, indexOf (p ++ s) iv.2 = Z.of_nat iv.1)
     (imap (λ i val, (length p + i, val)) s)).*2
  = filter (λ y, y ∉ p) (firstOccurrences s).
Proof.
  revert p. induction s as [|x s IH]; intros p; [done|].
  rewrite imap_cons.
  assert (imap ((λ i val, (length p + i, val)) ∘ S) s
          = imap (λ i val, (length (p ++ [x]) + i, val)) s) as ->.
  { apply imap_ext. intros i y _. simpl. rewrite length_app. simpl. f_equal. lia. }
  specialize (IH (p ++ [x])). rewrite <-app_assoc in IH. simpl in IH.
  simpl firstOccurrences.
  destruct (decide (x ∈ p)) as [Hin|Hout].
  - rewrite filter_cons_False.
    2:{ simpl. rewrite Nat.add_0_r, indexOf_first. by intros ?. }
    rewrite IH, filter_cons_False by (by intros ?).
    apply filter_not_elem_of_snoc.
  - rewrite filter_cons_True.
    2:{ simpl. by rewrite Nat.add_0_r, indexOf_first. }
    rewrite fmap_cons, IH, filter_cons_True by done. simpl.
    f_equal. apply filter_not_elem_of_snoc.
Qed.

(** The filter keeps the first occurrence of every value, in order. *)
Lemma uniqueFilter_firstOccurrences arr : uniqueFilter arr = firstOccurrences arr.
Proof.
  etrans; [exact (uniqueFilter_suffix [] arr)|].
  induction (firstOccurrences arr) as [|y l IH]; [done|].
  rewrite filter_cons_True by apply not_elem_of_nil. by rewrite IH.
Qed.

Lemma elem_of_firstOccurrences l x : x ∈ firstOccurrences l ↔ x ∈ l.
Proof.
  induction l as [|y l IH]; simpl; [done|].
  rewrite !elem_of_cons, list_elem_of_filter, IH.
  destruct (decide (x = y)); tauto.
Qed.

Lemma NoDup_firstOccurrences l : NoDup (firstOccurrences l).
Proof.
  induction l as [|y l IH]; simpl; [constructor|].
  apply NoDup_cons. split; [|by apply NoDup_filter].
  rewrite list_elem_of_filter. by intros [? _].
Qed.

Lemma firstOccurrences_app l1 l2 :
  firstOccurrences (l1 ++ l2)
  = firstOccurrences l1 ++ filter (λ y, y ∉ l1) (firstOccurrences l2).
Proof.
  induction l1 as [|x l1 IH]; simpl.
  - induction (firstOccurrences l2) as [|y l IHl]; [done|].
    rewrite filter_cons_True by apply not_elem_of_nil. by rewrite <-IHl.
  - rewrite IH, filter_app, list_filter_filter. do 2 f_equal.
    apply list_filter_iff. intros y. rewrite not_elem_of_cons. tauto.
Qed.

(** A file that is not in [l] stays last. *)
Lemma firstOccurrences_snoc l x :
  x ∉ l → firstOccurrences (l ++ [x]) = firstOccurrences l ++ [x].
Proof.
  intros Hx. rewrite firstOccurrences_app. simpl.
  by rewrite filter_cons_True.
Qed.

(** When the dependencies of every element occur before it, the list of
    first occurrences is in topological order. *)
Lemma firstOccurrences_topological g l :
  dependenciesPrecede g l →
  (∀ x, x ∈ l → is_Some (findByFileName g x)) →
  topologicallyOrdered g (firstOccurrences l).
Proof.
  intros Hdeps Hres i j a b Hi Hj Hij Hab.
  assert (a ∈ l) as Ha.
  { apply elem_of_firstOccurrences. by eapply list_elem_of_lookup_2. }
  assert (b ∈ l) as Hb.
  { apply elem_of_firstOccurrences. by eapply list_elem_of_lookup_2. }
  apply list_elem_of_split_l in Ha as (l1 & l2 & -> & Hfirst).
  destruct (Hdeps (length l1) a b) as (k & Hk & Hlook); [|done|by apply Hres|].
  { by rewrite list_lookup_middle. }
  rewrite lookup_app_l in Hlook by done.
  assert (b ∈ firstOccurrences l1) as (j' & Hj')%list_elem_of_lookup_1.
  { apply elem_of_firstOccurrences. by eapply list_elem_of_lookup_2. }
  rewrite firstOccurrences_app in Hi, Hj. simpl in Hi, Hj.
  rewrite filter_cons_True in Hi, Hj by done.
  pose proof (NoDup_firstOccurrences (l1 ++ a :: l2)) as Hnodup.
  rewrite firstOccurrences_app in Hnodup. simpl in Hnodup.
  rewrite filter_cons_True in Hnodup by done.
  pose proof (lookup_lt_Some _ _ _ Hj') as Hlt.
  assert (j = j') as ->.
  { eapply NoDup_lookup; [done..|]. by rewrite lookup_app_l. }
  assert (i = length (firstOccurrences l1)) as ->; [|lia].
  eapply NoDup_lookup; [done..|]. by rewrite list_lookup_middle.
Qed.

(** ** Load order: the sample graph *)

Example diamond_flat :
  flatImportList 3 diamond (findByFacade diamond "/ext/a.js")
  = Ok ["e.js"; "c.js"; "e.js"; "d.js"; "a.js"]
  ∧ flatImportList 3 diamond (findByFacade diamond "/ext/b.js")
    = Ok ["f.js"; "b.js"]
  ∧ uniqueFilter ["e.js"; "c.js"; "e.js"; "d.js"; "a.js"]
    = ["e.js"; "c.js"; "d.js"; "a.js"].
Proof. vm_compute. done. Qed.

Lemma diamond_acyclic : acyclic diamond.
Proof.
  apply (ranked_acyclic _ diamondRank).
  intros a b (c & [<- Hin]%findByFileName_Some & Hb).
  unfold diamond in Hin.
  repeat (apply elem_of_cons in Hin as [Heq|Hin];
          [injection Heq as ->; simpl in Hb;
           repeat (apply elem_of_cons in Hb as [->|Hb]; [vm_compute; lia|]);
           by apply elem_of_nil in Hb|]).
  by apply elem_of_nil in Hin.
Qed.

Lemma diamond_importsAreChunks : importsAreChunks diamond.
Proof.
  apply noAssets_importsAreChunks. intros item Hitem.
  unfold diamond in Hitem.
  repeat (apply elem_of_cons in Hitem as [->|Hitem]; [by eexists|]).
  by apply elem_of_nil in Hitem.
Qed.

(** ** Load order: the claims *)

(** C1, as stated, fails on the list [flatImportList] returns: on the
    sample graph the list for [a.js] is [e.js, c.js, e.js, d.js, a.js], where
    [c.js] at index 1 imports [e.js], which occurs again at index 2. *)
Lemma flatImportList_not_topological : ¬ flattenedTopologically.
Proof.
  intros H.
  destruct (H diamond chunkA 3 ["e.js"; "c.js"; "e.js"; "d.js"; "a.js"])
    as [Htopo _];
    [apply diamond_acyclic | apply diamond_importsAreChunks
    | reflexivity | reflexivity |].
  apply (Htopo 1 2 "c.js" "e.js"); [reflexivity | reflexivity | lia |].
  apply tc_once. exists (sampleChunk "c.js" ["e.js"] None).
  split; [reflexivity|]. by left.
Qed.

(** C1, amended.  On an acyclic graph whose imports name chunks,
    [flatImportList] returns, for an entry chunk of the graph, one list
    (whatever call depth beyond the size of the graph it is given); the
    entry's own file name is its last element; every file of the graph that
    the file at index [i] imports, directly or transitively, occurs at some
    index below [i] (it may occur again later); and once the uniqueness
    filter of the manifest rewrite has run, no file at index [i] imports a
    file at a greater index and the entry's file name is still last. *)
Theorem flatImportList_dependencies_first (g : list OutputItem) (entry : OutputChunk) :
  acyclic g → importsAreChunks g →
  findByFileName g (chunkFileName entry) = Some (ItemChunk entry) →
  ∃ l,
    (∀ fuel, length g < fuel → flatImportList fuel g (Some (ItemChunk entry)) = Ok l)
    ∧ (∀ fuel l', flatImportList fuel g (Some (ItemChunk entry)) = Ok l' → l' = l)
    ∧ last l = Some (chunkFileName entry)
    ∧ dependenciesPrecede g l
    ∧ topologicallyOrdered g (uniqueFilter l)
    ∧ last (uniqueFilter l) = Some (chunkFileName entry).
Proof.
  intros Hacyclic Hchunks Hself.
  destruct (flatImportList_returns g entry Hacyclic Hchunks Hself) as [l Hl].
  pose proof (Hl (S (length g)) (Nat.lt_succ_diag_r _)) as Hflat.
  destruct (flatImportList_facts (S (length g)) g (Some (ItemChunk entry)) l)
    as (Hdirect & Hres & Hlast); [by intros item [= <-]|done|].
  destruct Hlast as (l' & -> & Hl'). simpl in *.
  assert (chunkFileName entry ∉ l') as Hnotin.
  { intros Hin%Hl'. by apply Hacyclic in Hin. }
  apply directDependenciesPrecede_transitive in Hdirect.
  exists (l' ++ [chunkFileName entry]). repeat split; try done.
  - intros fuel l0 Hl0.
    apply (flatImportList_deterministic fuel (S (length g)) g _ _ _ Hl0 Hflat).
  - apply last_snoc.
  - rewrite uniqueFilter_firstOccurrences. by apply firstOccurrences_topological.
  - rewrite uniqueFilter_firstOccurrences, firstOccurrences_snoc by done.
    apply last_snoc.
Qed.

Lemma flatImportList_dependencies_first_witness :
  ∃ l,
    (∀ fuel, length diamond < fuel →
       flatImportList fuel diamond (Some (ItemChunk chunkA)) = Ok l)
    ∧ (∀ fuel l', flatImportList fuel diamond (Some (ItemChunk chunkA)) = Ok l' → l' = l)
    ∧ last l = Some (chunkFileName chunkA)
    ∧ dependenciesPrecede diamond l
    ∧ topologicallyOrdered diamond (uniqueFilter l)
    ∧ last (uniqueFilter l) = Some (chunkFileName chunkA).
Proof.
  apply (flatImportList_dependencies_first diamond chunkA);
    [apply diamond_acyclic | apply diamond_importsAreChunks | reflexivity].
Defined.

(** C2, as stated, fails on the list [flatImportList] returns: a shared
    dependency is listed once for every path that reaches it. *)
Lemma flatImportList_repeats : ¬ flattenedWithoutRepeats.
Proof.
  intros H.
  specialize (H diamond chunkA 3 ["e.js"; "c.js"; "e.js"; "d.js"; "a.js"]
                diamond_acyclic diamond_importsAreChunks eq_refl eq_refl).
  apply NoDup_cons in H as [Hnotin _]. apply Hnotin.
  right. left.
Qed.

(** C9.  For a missing entry chunk the flattening returns the empty list,
    whatever the call depth, and throws nothing; an entry point whose module
    is the facade of no chunk therefore gets the empty list in the dependency
    map. *)
Theorem flatImportList_missing_entry (fuel : nat) (g : list OutputItem) :
  flatImportList fuel g None = Ok []
  ∧ ∀ entryPath entryModuleID rest dependencyMap,
      findByFacade g entryModuleID = None →
      buildDependencyMap fuel g ((entryPath, entryModuleID) :: rest) dependencyMap
      = buildDependencyMap fuel g rest (<[entryPath := []]> dependencyMap).
Proof.
  split; [by destruct fuel|].
  intros entryPath entryModuleID rest dependencyMap Hnone. simpl.
  rewrite Hnone. by destruct fuel.
Qed.

Lemma flatImportList_missing_entry_witness :
  flatImportList 0 diamond (findByFacade diamond "/ext/missing.js") = Ok []
  ∧ buildDependencyMap 3 diamond
      [("missing.js", "/ext/missing.js"); ("b.js", "/ext/b.js")] ∅
    = Ok (<["b.js" := ["f.js"; "b.js"]]> (<["missing.js" := []]> ∅)).
Proof.
  split.
  - exact (proj1 (flatImportList_missing_entry 0 diamond)).
  - rewrite (proj2 (flatImportList_missing_entry 3 diamond)
               "missing.js" "/ext/missing.js" [("b.js", "/ext/b.js")] ∅ eq_refl).
    reflexivity.
Defined.

(** ** Manifest rewrite *)

Lemma splice1_take (arr : list string) i items :
  i ≤ length arr → take i (splice1 arr i items) = take i arr.
Proof.
  intros Hi. unfold splice1. apply take_app_length'. rewrite length_take. lia.
Qed.

Lemma splice1_drop (arr : list string) i items :
  i ≤ length arr → drop i (splice1 arr i items) = items ++ drop (S i) arr.
Proof.
  intros Hi. unfold splice1. apply drop_app_length'. rewrite length_take. lia.
Qed.

Lemma splice1_length (arr : list string) i items :
  i ≤ length arr → i ≤ length (splice1 arr i items).
Proof. intros Hi. unfold splice1. rewrite length_app, length_take. lia. Qed.

(** Working backwards, the loop has replaced the first [n] entries by
    their dependency lists when it returns. *)
Lemma rewriteLoop_Ok dependencyMap n js out :
  n ≤ length js →
  rewriteLoop dependencyMap n js = Ok out →
  ∃ lists,
    Forall2 (λ key deps, dependencyMap !! key = Some deps) (take n js) lists
    ∧ out = concat lists ++ drop n js.
Proof.
  revert js out. induction n as [|i IH]; intros js out Hn; simpl.
  - intros [= <-]. exists []. split; [|done]. rewrite take_0. constructor.
  - destruct (lookup_lt_is_Some_2 js i) as [key Hkey]; [lia|].
    rewrite Hkey. simpl.
    destruct (dependencyMap !! key) as [deps|] eqn:Hdeps; [|done].
    intros (lists & Hlists & ->)%IH; [|apply splice1_length; lia].
    rewrite splice1_take in Hlists by lia. rewrite splice1_drop by lia.
    exists (lists ++ [deps]). split.
    + rewrite (take_S_r _ _ _ Hkey). apply Forall2_app; [done|].
      by repeat constructor.
    + rewrite concat_app. simpl. by rewrite app_nil_r, <-app_assoc.
Qed.

Lemma rewriteScripts_Ok (dependencyMap : gmap string (list string))
    (js out : list string) :
  rewriteScripts dependencyMap js = Ok out →
  ∃ lists,
    Forall2 (λ key deps, dependencyMap !! key = Some deps) js lists
    ∧ out = firstOccurrences (concat lists).
Proof.
  unfold rewriteScripts.
  destruct (rewriteLoop dependencyMap (length js) js) as [js'| |] eqn:Hloop;
    simpl; [|done..].
  intros [= <-]. rewrite uniqueFilter_firstOccurrences.
  apply rewriteLoop_Ok in Hloop as (lists & Hlists & ->); [|done].
  rewrite firstn_all in Hlists. rewrite drop_all, app_nil_r.
  by exists lists.
Qed.

Lemma elem_of_concat (ls : list (list string)) x :
  x ∈ concat ls ↔ ∃ l, x ∈ l ∧ l ∈ ls.
Proof.
  induction ls as [|l ls IH]; simpl.
  - split; [by intros ?%elem_of_nil|by intros (l & _ & ?%elem_of_nil)].
  - rewrite elem_of_app, IH. split.
    + intros [Hx|(l' & Hx & Hl')]; [exists l|exists l']; split; try done;
        [by left|by right].
    + intros (l' & Hx & [->|Hl']%elem_of_cons); [by left|right; by exists l'].
Qed.

(** C2, amended.  The list [flatImportList] returns may repeat a file
    name; the repeats are removed by the manifest rewrite.  A rewritten
    script list is the concatenation of the dependency lists of its
    entries, in order, with only the first occurrence of every file name
    kept, so no file name occurs twice in it. *)
Theorem rewriteScripts_no_repeats (dependencyMap : gmap string (list string))
    (js out : list string) :
  rewriteScripts dependencyMap js = Ok out →
  NoDup out
  ∧ ∃ lists,
      Forall2 (λ key deps, dependencyMap !! key = Some deps) js lists
      ∧ out = firstOccurrences (concat lists).
Proof.
  intros (lists & Hlists & ->)%rewriteScripts_Ok.
  split; [apply NoDup_firstOccurrences|]. by exists lists.
Qed.

(** With a dependency map whose lists are results of [flatImportList],
    a rewritten script list is in topological order. *)
Lemma rewriteScripts_topological g (dependencyMap : gmap string (list string))
    (js out : list string) :
  (∀ key deps, dependencyMap !! key = Some deps → flattenedFrom g deps) →
  rewriteScripts dependencyMap js = Ok out →
  topologicallyOrdered g out.
Proof.
  intros Hmap (lists & Hlists & ->)%rewriteScripts_Ok.
  assert (Forall (λ deps, directDependenciesPrecede g deps
                          ∧ ∀ x, x ∈ deps → is_Some (findByFileName g x)) lists)
    as Hall.
  { clear -Hmap Hlists. induction Hlists as [|key deps ?? Hkey _ IH]; constructor; [|done].
    destruct (Hmap key deps Hkey) as (fuel & chunk & Hself & Hflat).
    by destruct (flatImportList_facts fuel g chunk deps Hself Hflat) as (? & ? & _). }
  apply firstOccurrences_topological.
  - apply directDependenciesPrecede_transitive, directDependenciesPrecede_concat.
    eapply Forall_impl; [done|]. by intros deps [? _].
  - intros x (deps & Hx & Hdeps)%elem_of_concat.
    rewrite Forall_forall in Hall. by apply (Hall deps Hdeps).
Qed.

Lemma findByFileName_unique g item :
  NoDup (fileName <$> g) → item ∈ g → findByFileName g (fileName item) = Some item.
Proof.
  unfold findByFileName.
  induction g as [|x g IH]; simpl; [by intros _ ?%elem_of_nil|].
  intros [Hx Hg]%NoDup_cons [->|Hin]%elem_of_cons.
  - by rewrite String.eqb_refl.
  - destruct (String.eqb_spec (fileName x) (fileName item)) as [Heq|_]; [|by apply IH].
    destruct Hx. rewrite Heq. apply list_elem_of_fmap. by exists item.
Qed.

Lemma findByFacade_elem_of g entryModuleID item :
  findByFacade g entryModuleID = Some item → item ∈ g.
Proof. intros [Hin _]%find_some. by apply list_elem_of_In. Qed.

(** Every list of a dependency map built over a graph with unique file
    names is a result of [flatImportList]. *)
Lemma buildDependencyMap_flattened fuel g entryPoints dependencyMap0 dependencyMap :
  NoDup (fileName <$> g) →
  buildDependencyMap fuel g entryPoints dependencyMap0 = Ok dependencyMap →
  (∀ key deps, dependencyMap0 !! key = Some deps → flattenedFrom g deps) →
  ∀ key deps, dependencyMap !! key = Some deps → flattenedFrom g deps.
Proof.
  intros Hunique. revert dependencyMap0.
  induction entryPoints as [|[entryPath entryModuleID] rest IH];
    intros dependencyMap0; simpl.
  - by intros [= <-].
  - destruct (flatImportList fuel g (findByFacade g entryModuleID))
      as [deps0| |] eqn:Hflat; simpl; [|done..].
    intros Hbuild Hold. apply (IH _ Hbuild).
    intros key deps. rewrite lookup_insert. case_decide as Hkey; [|apply Hold].
    intros [= <-]. exists fuel, (findByFacade g entryModuleID). split; [|done].
    intros item Hitem. apply findByFileName_unique; [done|].
    by eapply findByFacade_elem_of.
Qed.

(** From the chunk graph to the manifest: the script lists written to the
    manifest have no repeats and are in topological order. *)
Corollary manifest_scripts_ordered fuel g entryPoints dependencyMap js out :
  NoDup (fileName <$> g) →
  buildDependencyMap fuel g entryPoints ∅ = Ok dependencyMap →
  rewriteScripts dependencyMap js = Ok out →
  NoDup out ∧ topologicallyOrdered g out.
Proof.
  intros Hunique Hbuild Hrewrite. split.
  - apply rewriteScripts_Ok in Hrewrite as (lists & _ & ->).
    apply NoDup_firstOccurrences.
  - eapply rewriteScripts_topological; [|done].
    eapply buildDependencyMap_flattened; [done..|].
    intros key deps. by rewrite lookup_empty.
Qed.

Example manifest_scripts_sample :
  (dependencyMap ← buildDependencyMap 3 diamond
                     [("a.js", "/ext/a.js"); ("b.js", "/ext/b.js")] ∅ ;;;
   rewriteScripts dependencyMap ["a.js"; "b.js"])
  = Ok ["e.js"; "c.js"; "d.js"; "a.js"; "f.js"; "b.js"].
Proof. vm_compute. reflexivity. Qed.

(** The rewrite runs once per execution context: each content-script
    block and the background block get their own filtered list. *)
Lemma rewriteContentScript_no_repeats dependencyMap contentScript contentScript' scripts :
  rewriteContentScript dependencyMap contentScript = Ok contentScript' →
  js contentScript' = Some scripts → NoDup scripts.
Proof.
  unfold rewriteContentScript.
  destruct (js contentScript) as [scripts0|] eqn:Hjs; [|intros [= <-]; congruence].
  destruct (rewriteScripts dependencyMap scripts0) as [out| |] eqn:Hout;
    simpl; [|done..].
  intros [= <-] [= <-].
  apply rewriteScripts_Ok in Hout as (lists & _ & ->). apply NoDup_firstOccurrences.
Qed.

Example rewriteManifest_sample :
  rewriteManifest
    (<["a.js" := ["x.js"; "a.js"]]> (<["b.js" := ["x.js"; "y.js"; "b.js"]]> ∅))
    {| content_scripts := Some [ {| js := Some ["a.js"; "b.js"] |};
                                 {| js := None |};
                                 {| js := Some ["b.js"] |} ];
       background := Some (Some ["b.js"; "a.js"]) |}
  = Ok {| content_scripts := Some [ {| js := Some ["x.js"; "a.js"; "y.js"; "b.js"] |};
                                    {| js := None |};
                                    {| js := Some ["x.js"; "y.js"; "b.js"] |} ];
          background := Some (Some ["x.js"; "y.js"; "b.js"; "a.js"]) |}.
Proof. vm_compute. reflexivity. Qed.

Lemma rewriteScripts_no_repeats_witness :
  NoDup ["e.js"; "c.js"; "d.js"; "a.js"; "f.js"; "b.js"]
  ∧ ∃ lists,
      Forall2 (λ key deps,
                 (<["a.js" := ["e.js"; "c.js"; "e.js"; "d.js"; "a.js"]]>
                    (<["b.js" := ["f.js"; "b.js"]]> ∅) : gmap string (list string))
                 !! key = Some deps)
              ["a.js"; "b.js"] lists
      ∧ ["e.js"; "c.js"; "d.js"; "a.js"; "f.js"; "b.js"]
        = firstOccurrences (concat lists).
Proof.
  apply (rewriteScripts_no_repeats
           (<["a.js" := ["e.js"; "c.js"; "e.js"; "d.js"; "a.js"]]>
              (<["b.js" := ["f.js"; "b.js"]]> ∅))
           ["a.js"; "b.js"]).
  vm_compute. reflexivity.
Defined.

(** C3.  For a script list [[A, B]] of four distinct names, with
    dependency lists [[x, A]] for [A] and [[x, y, B]] for [B], the rewrite
    returns [[x, A, y, B]]. *)
Theorem rewriteScripts_shared_dependency (dependencyMap : gmap string (list string))
    (A B x y : string) :
  NoDup [A; B; x; y] →
  dependencyMap !! A = Some [x; A] →
  dependencyMap !! B = Some [x; y; B] →
  rewriteScripts dependencyMap [A; B] = Ok [x; A; y; B].
Proof.
  intros Hdistinct HA HB.
  assert (A ≠ B ∧ A ≠ x ∧ A ≠ y ∧ B ≠ x ∧ B ≠ y ∧ x ≠ y)
    as (HAB & HAx & HAy & HBx & HBy & Hxy).
  { rewrite !NoDup_cons, !not_elem_of_cons in Hdistinct. tauto. }
  unfold rewriteScripts. simpl. rewrite HB. simpl.
  unfold splice1. simpl. rewrite HA. simpl.
  rewrite uniqueFilter_firstOccurrences. simpl.
  repeat first
    [ rewrite filter_nil
    | rewrite filter_cons_True by congruence
    | rewrite filter_cons_False by (intros Hne; by apply Hne) ].
  done.
Qed.

Lemma rewriteScripts_shared_dependency_witness :
  rewriteScripts
    (<["a.js" := ["x.js"; "a.js"]]> (<["b.js" := ["x.js"; "y.js"; "b.js"]]> ∅))
    ["a.js"; "b.js"]
  = Ok ["x.js"; "a.js"; "y.js"; "b.js"].
Proof.
  apply (rewriteScripts_shared_dependency _ "a.js" "b.js" "x.js" "y.js").
  - by apply (bool_decide_unpack _).
  - reflexivity.
  - reflexivity.
Defined.

(** ** Scope rewriter *)

Lemma defaultName_not_constant N : defaultName N → globalConstant N = None.
Proof. intros (key & n & ->). reflexivity. Qed.

Lemma defaultName_generated cache key :
  goodCache "__" "__" cache →
  defaultName (makeIdentifierGenerator "__" "__" cache key).1.
Proof.
  intros Hgood.
  pose proof (good_step "__" "__" _ (makeIdentifierGenerator_step _ _)
                (ex_intro _ _ eq_refl) cache key Hgood) as Hgood'.
  pose proof (good_step_lookup "__" "__" _ (makeIdentifierGenerator_step _ _)
                (ex_intro _ _ eq_refl) cache key Hgood) as Hlookup.
  destruct (good_shape _ _ _ Hgood' _ _ Hlookup) as [n Hn]. by exists key, n.
Qed.

Lemma getProperty_insert scope h N N' v :
  globalConstant N = None →
  getProperty {| slots := <[N := v]> (slots scope); heap := h |} N'
  = if decide (N' = N) then v else getProperty scope N'.
Proof.
  intros Hconst. unfold getProperty. simpl. case_decide as Heq.
  - subst N'. by rewrite Hconst, lookup_insert_eq.
  - by rewrite lookup_insert_ne.
Qed.

(** Assigning a truthy value the property already reads changes nothing
    that can be read. *)
Lemma putProperty_same scope N :
  globalConstant N = None → truthy (getProperty scope N) = true →
  ∃ scope', putProperty scope N (getProperty scope N) = Some scope'
    ∧ heap scope' = heap scope
    ∧ ∀ N', getProperty scope' N' = getProperty scope N'.
Proof.
  intros Hconst Htruthy. unfold putProperty. rewrite Hconst.
  assert (∀ N', getProperty
            {| slots := <[N := getProperty scope N]> (slots scope);
               heap := heap scope |} N' = getProperty scope N') as Hinsert.
  { intros N'. rewrite getProperty_insert by done. by case_decide; subst. }
  destruct (slots scope !! N) as [own|] eqn:Hown; [by eexists|].
  destruct (String.eqb N "__proto__") eqn:Hproto; [|by eexists].
  apply String.eqb_eq in Hproto as ->.
  unfold getProperty in *. rewrite Hown in *. simpl. by exists scope.
Qed.

(** Assigning an object allocated in the heap to a property that reads a
    falsy value creates or updates a slot. *)
Lemma putProperty_fresh scope h N ref :
  globalConstant N = None → truthy (getProperty scope N) = false →
  putProperty {| slots := slots scope; heap := h |} N (VObject ref)
  = Some {| slots := <[N := VObject ref]> (slots scope); heap := h |}.
Proof.
  intros Hconst Hfalsy. unfold putProperty. rewrite Hconst. simpl.
  destruct (slots scope !! N) as [own|] eqn:Hown; [done|].
  destruct (String.eqb N "__proto__") eqn:Hproto; [|done].
  apply String.eqb_eq in Hproto as ->.
  unfold getProperty in Hfalsy. by rewrite Hown in Hfalsy.
Qed.

Lemma evalExpr_export_existing N scope :
  globalConstant N = None → truthy (getProperty scope N) = true →
  ∃ scope', evalExpr (exportArgumentTemplate N) scope = Some (getProperty scope N, scope')
    ∧ heap scope' = heap scope
    ∧ ∀ N', getProperty scope' N' = getProperty scope N'.
Proof.
  intros Hconst Htruthy.
  destruct (putProperty_same scope N Hconst Htruthy) as (scope' & Hput & Hheap & Hget).
  exists scope'. split; [|done].
  unfold exportArgumentTemplate. cbn [evalExpr]. by rewrite Htruthy, Hput.
Qed.

(** On a property that reads a falsy value the expression stores a new,
    empty object and returns it. *)
Lemma evalExpr_export_fresh N scope :
  globalConstant N = None → truthy (getProperty scope N) = false →
  evalExpr (exportArgumentTemplate N) scope
  = Some (VObject (length (heap scope)),
          {| slots := <[N := VObject (length (heap scope))]> (slots scope);
             heap := heap scope ++ [∅] |}).
Proof.
  intros Hconst Hfalsy. unfold exportArgumentTemplate. cbn [evalExpr].
  rewrite Hfalsy. by rewrite (putProperty_fresh scope _ N _ Hconst Hfalsy).
Qed.

(** What one evaluation of the export argument does, whatever the scope. *)
Lemma evalExpr_export N scope :
  globalConstant N = None →
  ∃ exportsObject scope',
    evalExpr (exportArgumentTemplate N) scope = Some (exportsObject, scope')
    ∧ truthy exportsObject = true
    ∧ getProperty scope' N = exportsObject
    ∧ (truthy (getProperty scope N) = true →
       exportsObject = getProperty scope N ∧ heap scope' = heap scope)
    ∧ (truthy (getProperty scope N) = false →
       exportsObject = VObject (length (heap scope))
       ∧ heap scope' = heap scope ++ [∅])
    ∧ (∀ N', N' ≠ N → getProperty scope' N' = getProperty scope N').
Proof.
  intros Hconst. destruct (truthy (getProperty scope N)) eqn:Htruthy.
  - destruct (evalExpr_export_existing N scope Hconst Htruthy)
      as (scope' & Heval & Hheap & Hget).
    exists (getProperty scope N), scope'. repeat split; done.
  - rewrite (evalExpr_export_fresh N scope Hconst Htruthy).
    eexists _, _. split; [done|]. split; [done|].
    split; [by rewrite getProperty_insert, decide_True|].
    split; [done|]. split; [done|].
    intros N' Hne. by rewrite getProperty_insert, decide_False.
Qed.

(** C7.  For a module with exports the plugin, with its default generator,
    passes as first IIFE argument the expression
    [this.NAME = this.NAME || {}] for the module's generated name, bound to
    the exports parameter.  Evaluating it always yields a truthy value and
    leaves it readable as [this.NAME]: the value [this.NAME] read before,
    when that was truthy (it is reused, not replaced), and else a new empty
    object.  No other property of the global object and no object allocated
    before is changed, so exports stored earlier stay; and evaluating the
    expression again yields the same value once more. *)
Theorem export_slot_reused
    (relativePath : string → string → string)
    (cwd filename : string) (meta : ModuleMetadata) (cache : gmap string string)
    (scope : GlobalScope) :
  let NAME := (makeIdentifierGenerator "__" "__" cache (relativePath cwd filename)).1 in
  goodCache "__" "__" cache →
  hasExports meta = true →
  (∃ iife cache',
      programExit (makeIdentifierGenerator "__" "__") relativePath true
        (Some filename) cwd meta cache = Ok (Some iife, cache')
      ∧ head (iifeArgs iife) = Some (exportArgumentTemplate NAME)
      ∧ head (iifeParamNames iife) = Some (exportName meta))
  ∧ ∃ exportsObject scope',
      evalExpr (exportArgumentTemplate NAME) scope = Some (exportsObject, scope')
      ∧ truthy exportsObject = true
      ∧ getProperty scope' NAME = exportsObject
      ∧ (truthy (getProperty scope NAME) = true →
         exportsObject = getProperty scope NAME ∧ heap scope' = heap scope)
      ∧ (truthy (getProperty scope NAME) = false →
         exportsObject = VObject (length (heap scope))
         ∧ heap scope' = heap scope ++ [∅])
      ∧ (∀ N', N' ≠ NAME → getProperty scope' N' = getProperty scope N')
      ∧ (∀ ref properties,
           heap scope !! ref = Some properties → heap scope' !! ref = Some properties)
      ∧ ∃ scope'',
          evalExpr (exportArgumentTemplate NAME) scope' = Some (exportsObject, scope'')
          ∧ heap scope'' = heap scope'
          ∧ ∀ N', getProperty scope'' N' = getProperty scope' N'.
Proof.
  intros NAME Hgood Hexports. split.
  - unfold programExit. simpl. rewrite Hexports. subst NAME.
    destruct (makeIdentifierGenerator "__" "__" cache (relativePath cwd filename))
      as [uid cache1].
    destruct (importArguments (makeIdentifierGenerator "__" "__") relativePath cwd
                (source meta) cache1) as [importPart cache2].
    by eexists _, _.
  - assert (globalConstant NAME = None) as Hconst
      by apply defaultName_not_constant, defaultName_generated, Hgood.
    destruct (evalExpr_export NAME scope Hconst)
      as (exportsObject & scope' & Heval & Htruthy & Hbound & Hreused & Hnew & Hother).
    exists exportsObject, scope'. repeat (split; [done|]). split.
    + intros ref properties Href.
      destruct (truthy (getProperty scope NAME)) eqn:Hheld.
      * destruct (Hreused eq_refl) as [_ ->]. done.
      * destruct (Hnew eq_refl) as [_ ->]. by apply lookup_app_l_Some.
    + rewrite <-Hbound in Htruthy.
      destruct (evalExpr_export_existing NAME scope' Hconst Htruthy)
        as (scope'' & Heval' & Hheap & Hget).
      exists scope''. by rewrite <-Hbound at 1.
Qed.

Lemma export_slot_reused_witness :
  let NAME := (makeIdentifierGenerator "__" "__" ∅ "lib.js").1 in
  let scope := {| slots := {[ "__lib_js__" := VObject 0 ]};
                  heap := [ {[ "answer" := VNumber 42 ]} ] |} in
  (∃ iife cache',
      programExit (makeIdentifierGenerator "__" "__") (λ _ file, file)
        true (Some "lib.js") "/ext"
        {| hasExports := true; exportName := "_exports"; source := [] |} ∅
      = Ok (Some iife, cache')
      ∧ head (iifeArgs iife) = Some (exportArgumentTemplate NAME)
      ∧ head (iifeParamNames iife) = Some "_exports")
  ∧ ∃ exportsObject scope',
      evalExpr (exportArgumentTemplate NAME) scope = Some (exportsObject, scope')
      ∧ truthy exportsObject = true
      ∧ getProperty scope' NAME = exportsObject
      ∧ (truthy (getProperty scope NAME) = true →
         exportsObject = getProperty scope NAME ∧ heap scope' = heap scope)
      ∧ (truthy (getProperty scope NAME) = false →
         exportsObject = VObject (length (heap scope))
         ∧ heap scope' = heap scope ++ [∅])
      ∧ (∀ N', N' ≠ NAME → getProperty scope' N' = getProperty scope N')
      ∧ (∀ ref properties,
           heap scope !! ref = Some properties → heap scope' !! ref = Some properties)
      ∧ ∃ scope'',
          evalExpr (exportArgumentTemplate NAME) scope' = Some (exportsObject, scope'')
          ∧ heap scope'' = heap scope'
          ∧ ∀ N', getProperty scope'' N' = getProperty scope' N'.
Proof.
  intros NAME scope.
  apply (export_slot_reused (λ _ file, file) "/ext" "lib.js"
           {| hasExports := true; exportName := "_exports"; source := [] |} ∅ scope).
  - apply goodCache_empty.
  - reflexivity.
Defined.

(** A first run on a fresh scope creates the exports object; a second run,
    after the module has stored an export in it, passes the same object with
    the export still there. *)
Example export_argument_run :
  let scope0 := {| slots := ∅; heap := [] |} in
  evalExpr (exportArgumentTemplate "__lib_js__") scope0
  = Some (VObject 0, {| slots := {[ "__lib_js__" := VObject 0 ]}; heap := [∅] |})
  ∧ let scope2 := {| slots := {[ "__lib_js__" := VObject 0 ]};
                     heap := [ {[ "answer" := VNumber 42 ]} ] |} in
    evalExpr (exportArgumentTemplate "__lib_js__") scope2 = Some (VObject 0, scope2).
Proof.
  split; [reflexivity|]. cbv zeta. unfold exportArgumentTemplate. cbn [evalExpr].
  unfold getProperty, putProperty. cbn [globalConstant slots heap].
  replace (globalConstant "__lib_js__") with (@None value) by reflexivity.
  rewrite lookup_singleton_eq. simpl. by rewrite insert_singleton_eq.
Qed.

(** A file whose key is [proto] gets the name [__proto__] from the default
    generator; the export argument then passes the prototype of the global
    object as exports object and creates no slot. *)
Example export_argument_proto :
  (makeIdentifierGenerator "__" "__" ∅ "proto").1 = "__proto__"
  ∧ ∀ scope, slots scope !! "__proto__" = None →
      evalExpr (exportArgumentTemplate "__proto__") scope
      = Some (VBuiltin "__proto__", scope).
Proof.
  split; [vm_compute; reflexivity|]. intros scope Hslot.
  unfold exportArgumentTemplate. cbn [evalExpr]. unfold getProperty, putProperty.
  replace (globalConstant "__proto__") with (@None value) by reflexivity.
  rewrite Hslot.
  replace (inheritedProperty "__proto__") with (Some (VBuiltin "__proto__"))
    by (vm_compute; reflexivity).
  simpl. by rewrite Hslot.
Qed.

(** ** The output-count check *)

Lemma chunkId_undeclared : "chunkId" ∉ declaredIdentifiers.
Proof. by apply (bool_decide_unpack _). Qed.

Lemma scopeAtCheck_chunkId render : scopeAtCheck render !! "chunkId" = None.
Proof.
  unfold scopeAtCheck. apply not_elem_of_list_to_map.
  rewrite <-list_fmap_compose.
  intros (name & Heq & Hin)%list_elem_of_fmap. simpl in Heq. subst name.
  by apply chunkId_undeclared.
Qed.

Lemma checkIifeOutput_throws scope iifeOutput :
  scope !! "chunkId" = None → length iifeOutput ≠ 1 →
  checkIifeOutput scope iifeOutput = Throw (ReferenceError "chunkId is not defined").
Proof.
  intros Hscope Hlen. unfold checkIifeOutput, readIdentifier.
  rewrite bool_decide_eq_true_2 by done. by rewrite Hscope.
Qed.

(** C8, on the code: when an IIFE build has two outputs the check does
    throw, but what is thrown is the [ReferenceError] for the undeclared
    [chunkId], raised while the message is being built; its text names no
    chunk file. *)
Theorem checkIifeOutput_two_outputs (render : string → string) :
  checkIifeOutput (scopeAtCheck render) ["(function () {})();"; "logo.png"]
  = Throw (ReferenceError "chunkId is not defined")
  ∧ includes (errorMessage (ReferenceError "chunkId is not defined")) "content.js"
    = false.
Proof.
  split; [|reflexivity].
  apply checkIifeOutput_throws; [apply scopeAtCheck_chunkId|done].
Qed.

Example checkIifeOutput_single render :
  checkIifeOutput (scopeAtCheck render) ["(function () {})();"]
  = Ok "(function () {})();".
Proof. reflexivity. Qed.

(* ===================================================================== *)
(** * Part III: further properties of the code                            *)
(* ===================================================================== *)

#[local] Set Warnings "-clear-no-such-hyp".

(** ** Sanitising a key *)

(** X1.  The replacement [/[^a-z0-9_]/gi -> '_'] keeps the length of the
    key, leaves only characters of [[A-Za-z0-9_]], does nothing when applied
    a second time, and leaves a key unchanged exactly when the key is made of
    such characters only. *)
Theorem replaceNonWord_sanitises (str : string) :
  String.length (replaceNonWord str) = String.length str
  ∧ allChars isWordChar (replaceNonWord str) = true
  ∧ replaceNonWord (replaceNonWord str) = replaceNonWord str
  ∧ (replaceNonWord str = str ↔ allChars isWordChar str = true).
Proof.
  split; [apply replaceNonWord_length|].
  induction str as [|c str (IHall & IHidem & IHfix)]; simpl; [done|].
  destruct (isWordChar c) eqn:Hc; simpl; rewrite ?Hc, ?IHall, ?IHidem; simpl.
  - repeat split; try done.
    + intros [= Heq]. by apply IHfix.
    + intros Hall. f_equal. by apply IHfix.
  - repeat split; try done. intros [= <- _]. done.
Qed.

(** ** The allocator's cache *)

Lemma uniquify_step values name :
  uniquify values name
  = if collides values name then uniquify values (name +:+ "_") else name.
Proof.
  funelim (uniquify values name).
  - match goal with H : collides _ _ = true |- _ => by rewrite H end.
  - match goal with H : collides _ _ = false |- _ => by rewrite H end.
Qed.

Lemma uniquify_rounds values name :
  ∃ rounds, rounds ≤ length values
    ∧ uniquify values name = name +:+ underscores rounds.
Proof.
  destruct (uniquify_run values name) as [rounds Hrun].
  exists rounds. split; [by eapply whileCollides_rounds|].
  by apply whileCollides_final in Hrun as (? & _).
Qed.

Lemma globalExportsVariableName_cases cache key :
  (∃ v, cache !! key = Some v ∧ globalExportsVariableName cache key = (v, cache))
  ∨ (cache !! key = None
     ∧ globalExportsVariableName cache key
       = (uniquify (cacheValues cache) (deriveName exbyPrefix exbySuffix key),
          <[key := uniquify (cacheValues cache) (deriveName exbyPrefix exbySuffix key)]>
            cache)).
Proof.
  unfold globalExportsVariableName, deriveName.
  destruct (cache !! key) as [v|]; [left; by exists v|by right].
Qed.

(** X4.  The cache only grows: after any sequence of calls every entry the
    cache had is still there with the same name, and the keys of the cache are
    the old keys together with the keys asked for. *)
Theorem globalExportsVariableName_cache_grows (cache : gmap string string)
    (keys : list string) :
  cache ⊆ (allocateAll globalExportsVariableName cache keys).2
  ∧ dom (allocateAll globalExportsVariableName cache keys).2
    = dom cache ∪ list_to_set keys.
Proof.
  revert cache. induction keys as [|key keys IH]; intros cache; simpl.
  - split; [done|]. set_solver.
  - destruct (globalExportsVariableName_cases cache key)
      as [(v & Hv & ->)|(Hnone & ->)].
    + specialize (IH cache).
      destruct (allocateAll globalExportsVariableName cache keys) as [names cache'].
      simpl in *. destruct IH as [Hsub ->]. split; [done|].
      apply elem_of_dom_2 in Hv. set_solver.
    + set (name := uniquify _ _).
      specialize (IH (<[key := name]> cache)).
      destruct (allocateAll globalExportsVariableName _ keys) as [names cache'].
      simpl in *. destruct IH as [Hsub ->]. split.
      * etrans; [|done]. by apply insert_subseteq.
      * rewrite dom_insert_L. set_solver.
Qed.

Section AllocatorShape.
Variables prefix suffix : string.
Variable allocate : gmap string string → string → string * gmap string string.
Hypothesis allocate_step : allocatorStep prefix suffix allocate.
Hypothesis prefix_underscore : ∃ rest, prefix = String "_" rest.

(** One call keeps the number of appended underscores below the size of
    the cache, and appends at most as many as the cache has entries. *)
Lemma good_step_bounded cache key :
  goodCache prefix suffix cache →
  (∀ k v, cache !! k = Some v →
     ∃ n, n < size cache ∧ v = deriveName prefix suffix k +:+ underscores n) →
  (∀ k v, (allocate cache key).2 !! k = Some v →
     ∃ n, n < size (allocate cache key).2
          ∧ v = deriveName prefix suffix k +:+ underscores n)
  ∧ size (allocate cache key).2 ≤ S (size cache)
  ∧ ∃ n, n ≤ size cache
      ∧ (allocate cache key).1 = deriveName prefix suffix key +:+ underscores n.
Proof.
  intros Hgood Hbound.
  destruct (good_step_cases prefix suffix allocate allocate_step prefix_underscore
              cache key Hgood) as [[Hhit ->]|(Hnone & Hname & ->)].
  - split; [done|]. split; [lia|].
    destruct (Hbound _ _ Hhit) as (n & Hn & Heq). exists n. split; [lia|done].
  - destruct (uniquify_rounds (cacheValues cache) (deriveName prefix suffix key))
      as (rounds & Hrounds & Heq).
    rewrite length_cacheValues in Hrounds. rewrite <-Hname in Heq.
    rewrite map_size_insert_None by done.
    split; [|split; [lia|by exists rounds]].
    intros k v. rewrite lookup_insert. case_decide as Hk.
    + intros [= <-]. subst k. exists rounds. split; [lia|done].
    + intros Hv. destruct (Hbound _ _ Hv) as (n & Hn & Hnv).
      exists n. split; [lia|done].
Qed.

Lemma allocateAll_bounded cache keys i key name :
  goodCache prefix suffix cache →
  (∀ k v, cache !! k = Some v →
     ∃ n, n < size cache ∧ v = deriveName prefix suffix k +:+ underscores n) →
  keys !! i = Some key →
  (allocateAll allocate cache keys).1 !! i = Some name →
  ∃ n, n ≤ size cache + i
    ∧ name = deriveName prefix suffix key +:+ underscores n.
Proof.
  revert cache i. induction keys as [|key0 keys IH]; intros cache i Hgood Hbound Hkey;
    [done|].
  simpl.
  pose proof (good_step prefix suffix allocate allocate_step prefix_underscore
                cache key0 Hgood) as Hgood'.
  destruct (good_step_bounded cache key0 Hgood Hbound)
    as (Hbound' & Hsize & (n0 & Hn0 & Hname0)).
  destruct (allocate cache key0) as [name0 cache']. simpl in *.
  specialize (IH cache').
  destruct (allocateAll allocate cache' keys) as [names cache''].
  destruct i as [|i]; simpl in *.
  - intros [= <-]. simplify_eq. exists n0. split; [lia|done].
  - intros Hname. destruct (IH i Hgood' Hbound' Hkey Hname) as (n & Hn & Heq).
    exists n. split; [lia|done].
Qed.
End AllocatorShape.

(** X2.  The name returned by the [i]-th call of a build (counting from 0)
    is the fixed prefix, the sanitised key and the fixed suffix, followed by
    at most [i] underscores. *)
Theorem globalExportsVariableName_shape (keys : list string) (i : nat)
    (key name : string) :
  keys !! i = Some key →
  (allocateAll globalExportsVariableName ∅ keys).1 !! i = Some name →
  ∃ n, n ≤ i
    ∧ name = "__EXBY_MODULE__" +:+ replaceNonWord key +:+ "__" +:+ underscores n.
Proof.
  intros Hkey Hname.
  assert (∀ k v, (∅ : gmap string string) !! k = Some v →
            ∃ n, n < size (∅ : gmap string string)
                 ∧ v = deriveName exbyPrefix exbySuffix k +:+ underscores n)
    as Hbound by (intros k v; by rewrite lookup_empty).
  destruct (allocateAll_bounded exbyPrefix exbySuffix globalExportsVariableName
              globalExportsVariableName_step (ex_intro _ _ eq_refl)
              ∅ keys i key name (goodCache_empty _ _) Hbound Hkey Hname)
    as (n & Hn & ->).
  exists n. split; [by rewrite map_size_empty in Hn|].
  unfold deriveName, exbyPrefix, exbySuffix. by rewrite !append_assoc.
Qed.

Lemma globalExportsVariableName_shape_witness :
  ∃ n, n ≤ 1
    ∧ "__EXBY_MODULE__a_b___"
      = "__EXBY_MODULE__" +:+ replaceNonWord "a_b" +:+ "__" +:+ underscores n.
Proof.
  apply (globalExportsVariableName_shape ["a.b"; "a_b"] 1 "a_b"); reflexivity.
Defined.

(** X3.  Two different keys with the same sanitised form, asked for one
    after the other in a fresh build, get the derived name and the derived
    name with one underscore appended. *)
Theorem globalExportsVariableName_collision (key1 key2 : string) :
  key1 ≠ key2 → replaceNonWord key1 = replaceNonWord key2 →
  (allocateAll globalExportsVariableName ∅ [key1; key2]).1
  = [ deriveName exbyPrefix exbySuffix key1;
      deriveName exbyPrefix exbySuffix key1 +:+ "_" ].
Proof.
  intros Hne Hsame.
  assert (deriveName exbyPrefix exbySuffix key2 = deriveName exbyPrefix exbySuffix key1)
    as Hderive by (unfold deriveName; by rewrite Hsame).
  set (d := deriveName exbyPrefix exbySuffix key1) in *.
  assert (globalExportsVariableName ∅ key1 = (d, {[key1 := d]})) as Hfirst.
  { destruct (globalExportsVariableName_cases ∅ key1) as [(v & Hv & _)|[_ ->]];
      [by rewrite lookup_empty in Hv|].
    by rewrite uniquify_step. }
  assert (globalExportsVariableName {[key1 := d]} key2
          = (d +:+ "_", <[key2 := d +:+ "_"]> {[key1 := d]})) as Hsecond.
  { destruct (globalExportsVariableName_cases {[key1 := d]} key2)
      as [(v & Hv & _)|[_ ->]];
      [by rewrite lookup_singleton_ne in Hv|].
    rewrite Hderive.
    assert (cacheValues {[key1 := d]} = [d]) as ->.
    { unfold cacheValues. by rewrite map_to_list_singleton. }
    assert (uniquify [d] d = d +:+ "_") as ->; [|reflexivity].
    rewrite uniquify_step, (proj2 (collides_true [d] d)) by (by left).
    rewrite uniquify_step, (proj2 (collides_false [d] (d +:+ "_"))); [done|].
    intros Heq%list_elem_of_singleton.
    apply (f_equal String.length) in Heq. rewrite length_append in Heq.
    simpl in Heq. lia. }
  simpl. by rewrite Hfirst, Hsecond.
Qed.

Lemma globalExportsVariableName_collision_witness :
  (allocateAll globalExportsVariableName ∅ ["src/a-b.js"; "src/a_b.js"]).1
  = [ deriveName exbyPrefix exbySuffix "src/a-b.js";
      deriveName exbyPrefix exbySuffix "src/a-b.js" +:+ "_" ].
Proof.
  apply (globalExportsVariableName_collision "src/a-b.js" "src/a_b.js");
    [discriminate | reflexivity].
Defined.

(** On a cache without an empty name the plugin's generator, given the
    prefix and suffix of bin/exby.js, is [globalExportsVariableName]. *)
Lemma makeIdentifierGenerator_exby cache key :
  allTruthy cache →
  makeIdentifierGenerator exbyPrefix exbySuffix cache key
  = globalExportsVariableName cache key
  ∧ allTruthy (globalExportsVariableName cache key).2.
Proof.
  intros Htruthy. unfold makeIdentifierGenerator, globalExportsVariableName.
  destruct (cache !! key) as [existing|] eqn:Hkey.
  - by rewrite (Htruthy _ _ Hkey).
  - split; [done|]. simpl. intros k v. rewrite lookup_insert.
    case_decide; [|by apply Htruthy]. intros [= <-].
    destruct (uniquify_shape (cacheValues cache)
                (exbyPrefix +:+ replaceNonWord key +:+ exbySuffix)) as [n ->].
    done.
Qed.

(** X5.  The two implementations of the allocator are one: with the prefix
    and suffix of bin/exby.js, the generator of src/babelPlugin.js returns
    the same names and builds the same cache as [globalExportsVariableName],
    for every sequence of requests of a build. *)
Theorem makeIdentifierGenerator_agrees (keys : list string) :
  allocateAll (makeIdentifierGenerator exbyPrefix exbySuffix) ∅ keys
  = allocateAll globalExportsVariableName ∅ keys.
Proof.
  assert (∀ cache, allTruthy cache →
    allocateAll (makeIdentifierGenerator exbyPrefix exbySuffix) cache keys
    = allocateAll globalExportsVariableName cache keys) as Hgen.
  { induction keys as [|key keys IH]; intros cache Htruthy; simpl; [done|].
    destruct (makeIdentifierGenerator_exby cache key Htruthy) as [-> Htruthy'].
    destruct (globalExportsVariableName cache key) as [name cache'].
    by rewrite (IH cache' Htruthy'). }
  apply Hgen. intros k v. by rewrite lookup_empty.
Qed.

(** ** What a flattened list contains *)

Lemma flatImportList_elem_of_import g entry fuel l x :
  findByFileName g (fileName entry) = Some entry →
  flatImportList fuel g (Some entry) = Ok l →
  x = fileName entry
  ∨ (importsTransitively g (fileName entry) x ∧ is_Some (findByFileName g x)) →
  x ∈ l.
Proof.
  intros Hself Hflat Hx.
  destruct (flatImportList_facts fuel g (Some entry) l)
    as (Hdirect & _ & (l' & -> & _)); [by intros item [= <-]|done|].
  apply directDependenciesPrecede_transitive in Hdirect.
  destruct Hx as [->|[Htc Hxres]].
  - apply elem_of_app. right. by apply list_elem_of_singleton.
  - destruct (Hdirect (length l') (fileName entry) x) as (j & _ & Hj); [|done..|].
    { by rewrite list_lookup_middle. }
    by eapply list_elem_of_lookup_2.
Qed.

(** X6.  A list [flatImportList] returns holds the start chunk's own file
    name and exactly those files of the graph that the start chunk imports,
    directly or transitively: no dependency is left out, and an import that
    names no output item is skipped. *)
Theorem flatImportList_complete (g : list OutputItem) (entry : OutputItem)
    (fuel : nat) (l : list string) :
  findByFileName g (fileName entry) = Some entry →
  flatImportList fuel g (Some entry) = Ok l →
  ∀ x, x ∈ l ↔
    x = fileName entry
    ∨ (importsTransitively g (fileName entry) x ∧ is_Some (findByFileName g x)).
Proof.
  intros Hself Hflat x.
  split; [|by apply (flatImportList_elem_of_import g entry fuel)].
  destruct (flatImportList_facts fuel g (Some entry) l)
    as (_ & Hres & (l' & -> & Hl')); [by intros item [= <-]|done|].
  intros Hx. pose proof (Hres x Hx) as Hxres.
  apply elem_of_app in Hx as [Hx|Hx%list_elem_of_singleton]; [|by left].
  right. split; [by apply Hl'|done].
Qed.

Lemma flatImportList_complete_witness :
  "d.js" ∈ ["e.js"; "c.js"; "e.js"; "d.js"; "a.js"] ↔
    "d.js" = fileName (ItemChunk chunkA)
    ∨ (importsTransitively diamond (fileName (ItemChunk chunkA)) "d.js"
       ∧ is_Some (findByFileName diamond "d.js")).
Proof.
  apply (flatImportList_complete diamond (ItemChunk chunkA) 3); reflexivity.
Defined.

(** ** Graphs the flattening does not return on *)

Lemma flatImportList_cycle_not_Ok g entry b fuel l :
  findByFileName g (fileName entry) = Some entry →
  b = fileName entry ∨ importsTransitively g (fileName entry) b →
  importsTransitively g b b →
  flatImportList fuel g (Some entry) ≠ Ok l.
Proof.
  intros Hself Hreach Hcycle Hflat.
  destruct (flatImportList_facts fuel g (Some entry) l)
    as (Hdirect & _ & _); [by intros item [= <-]|done|].
  apply directDependenciesPrecede_transitive in Hdirect.
  assert (is_Some (findByFileName g b)) as Hb.
  { destruct (importsTransitively_source g b b Hcycle) as [c ->]. by eexists. }
  assert (b ∈ l) as (i & Hi)%list_elem_of_lookup_1.
  { apply (flatImportList_elem_of_import g entry fuel l b Hself Hflat).
    destruct Hreach as [->|Hreach]; [by left|by right]. }
  induction i as [i IH] using lt_wf_ind.
  destruct (Hdirect i b b Hi Hcycle Hb) as (j & Hlt & Hj).
  by apply (IH j).
Qed.

Lemma flatImportList_throws_TypeError fuel g chunk e :
  flatImportList fuel g chunk = Throw e → e = TypeError.
Proof.
  revert chunk e. induction fuel as [|fuel IH]; intros [[c|a]|] e; simpl;
    try done; try (by intros [= <-]).
  destruct (mapM _ (imports c)) as [nested|e'|] eqn:Hmap; simpl; [done| |done].
  intros [= <-]. apply mapM_Throw in Hmap as (b & _ & Hb). by eapply IH.
Qed.

(** X7.  No cycle is detected or broken: when the start chunk lies on an
    import cycle, or imports a chunk that does, the recursion uses up every
    call depth, so the call never returns a list; whatever number of frames
    the call stack holds, it ends in the [RangeError] of a stack overflow. *)
Theorem flatImportList_cycle (g : list OutputItem) (entry : OutputChunk)
    (b : string) :
  importsAreChunks g →
  findByFileName g (chunkFileName entry) = Some (ItemChunk entry) →
  b = chunkFileName entry ∨ importsTransitively g (chunkFileName entry) b →
  importsTransitively g b b →
  ∀ stackDepth,
    flatImportList stackDepth g (Some (ItemChunk entry)) = OutOfFuel
    ∧ flatImportListOnStack stackDepth g (Some (ItemChunk entry))
      = Throw (RangeError "Maximum call stack size exceeded").
Proof.
  intros Hchunks Hself Hreach Hcycle stackDepth.
  assert (flatImportList stackDepth g (Some (ItemChunk entry)) = OutOfFuel) as Hflat.
  { destruct (flatImportList stackDepth g (Some (ItemChunk entry))) as [l|e|] eqn:Hflat;
      [| |done].
    - by destruct (flatImportList_cycle_not_Ok g (ItemChunk entry) b stackDepth l).
    - destruct (flatImportList_no_throw stackDepth g (Some (ItemChunk entry)) e);
        [done| |done].
      intros item [= <-]. by exists entry. }
  split; [done|]. unfold flatImportListOnStack. by rewrite Hflat.
Qed.

Lemma flatImportList_cycle_witness :
  flatImportList 50 mutualImports (Some (ItemChunk chunkP)) = OutOfFuel
  ∧ flatImportListOnStack 50 mutualImports (Some (ItemChunk chunkP))
    = Throw (RangeError "Maximum call stack size exceeded").
Proof.
  apply (flatImportList_cycle mutualImports chunkP "p.js").
  - apply noAssets_importsAreChunks. intros item Hitem.
    unfold mutualImports in Hitem.
    repeat (apply elem_of_cons in Hitem as [->|Hitem]; [by eexists|]).
    by apply elem_of_nil in Hitem.
  - reflexivity.
  - by left.
  - eapply tc_l; [|apply tc_once].
    + exists chunkP. split; [reflexivity|by left].
    + exists (sampleChunk "q.js" ["p.js"] None). split; [reflexivity|by left].
Defined.

(** The files of a returned list are chunks of the graph. *)
Lemma flatImportList_elements_chunks fuel g chunk l :
  (∀ item, chunk = Some item → findByFileName g (fileName item) = Some item) →
  flatImportList fuel g chunk = Ok l →
  ∀ x, x ∈ l → ∃ c, findByFileName g x = Some (ItemChunk c).
Proof.
  revert chunk l. induction fuel as [|fuel IH]; intros chunk l Hself Hflat;
    apply flatImportList_Ok_inv in Hflat
      as [[-> ->]|(fuel' & c & nested & Hfuel & -> & Hnested & ->)];
    try (by intros x ?%elem_of_nil); [done|].
  injection Hfuel as <-. specialize (Hself _ eq_refl). simpl in Hself.
  intros x [Hx|Hx%list_elem_of_singleton]%elem_of_app; [|subst x; by exists c].
  clear Hself. induction Hnested as [|importee deps ?? Hdeps _ IHn]; simpl in Hx;
    [by apply elem_of_nil in Hx|].
  apply elem_of_app in Hx as [Hx|Hx]; [|by apply IHn].
  by apply (IH _ deps (findByFileName_self g importee) Hdeps).
Qed.

(** X8.  On an acyclic graph, when the start chunk or a chunk it imports
    has an import that names an asset, the traversal aborts with a
    [TypeError] (at every call depth beyond the size of the graph): it reads
    [imports] of the asset. *)
Theorem flatImportList_asset_import (g : list OutputItem) (entry : OutputChunk)
    (a b : string) (asset : OutputAsset) (fuel : nat) :
  acyclic g →
  findByFileName g (chunkFileName entry) = Some (ItemChunk entry) →
  a = chunkFileName entry ∨ importsTransitively g (chunkFileName entry) a →
  importsDirectly g a b →
  findByFileName g b = Some (ItemAsset asset) →
  length g < fuel →
  flatImportList fuel g (Some (ItemChunk entry)) = Throw TypeError.
Proof.
  intros Hacyclic Hself Hreach Hab Hb Hfuel.
  destruct (flatImportList fuel g (Some (ItemChunk entry))) as [l|e|] eqn:Hflat.
  - assert (b ∈ l) as Hin.
    { apply (flatImportList_elem_of_import g (ItemChunk entry) fuel l b Hself Hflat).
      right. split; [|by rewrite Hb]. simpl.
      destruct Hreach as [->|Hreach]; [by apply tc_once|].
      eapply tc_r; done. }
    destruct (flatImportList_elements_chunks fuel g (Some (ItemChunk entry)) l)
      with (x := b) as [c Hc]; [by intros item [= <-]|done..|congruence].
  - by rewrite (flatImportList_throws_TypeError _ _ _ _ Hflat).
  - apply flatImportList_out_of_fuel in Hflat as [z Hz]; [|done].
    apply acyclic_path_length in Hz; [lia|done].
Qed.

Lemma flatImportList_asset_import_witness :
  flatImportList 4 withAsset (Some (ItemChunk chunkM)) = Throw TypeError.
Proof.
  apply (flatImportList_asset_import withAsset chunkM "m.js" "logo.png"
           {| assetFileName := "logo.png" |} 4).
  - apply (ranked_acyclic _ withAssetRank).
    intros x y (c & [<- Hin]%findByFileName_Some & Hy).
    unfold withAsset in Hin.
    repeat (apply elem_of_cons in Hin as [Heq|Hin];
            [try discriminate Heq; injection Heq as ->; simpl in Hy;
             repeat (apply elem_of_cons in Hy as [->|Hy]; [vm_compute; lia|]);
             by apply elem_of_nil in Hy|]).
    by apply elem_of_nil in Hin.
  - reflexivity.
  - by left.
  - exists chunkM. split; [reflexivity|]. right. by left.
  - reflexivity.
  - simpl. lia.
Defined.

(** ** The dependency map *)

Lemma buildDependencyMap_Ok fuel g entryPoints dependencyMap0 dependencyMap :
  buildDependencyMap fuel g entryPoints dependencyMap0 = Ok dependencyMap →
  Forall (λ entry, ∃ deps,
            flatImportList fuel g (findByFacade g entry.2) = Ok deps) entryPoints
  ∧ (NoDup entryPoints.*1 →
     dependencyMap
     = (dependenciesOf fuel g <$> list_to_map entryPoints) ∪ dependencyMap0).
Proof.
  revert dependencyMap0.
  induction entryPoints as [|[entryPath entryModuleID] rest IH];
    intros dependencyMap0; simpl.
  - intros [= <-]. split; [constructor|]. intros _.
    by rewrite fmap_empty, (left_id_L ∅ (∪)).
  - destruct (flatImportList fuel g (findByFacade g entryModuleID))
      as [deps| |] eqn:Hflat; simpl; [|done..].
    intros (Hall & Hmap)%IH. split; [constructor; [by exists deps|done]|].
    intros [Hnotin Hnodup]%NoDup_cons. rewrite (Hmap Hnodup).
    rewrite fmap_insert. unfold dependenciesOf at 2. rewrite Hflat.
    apply map_eq. intros key.
    rewrite !lookup_union, !lookup_insert, lookup_fmap.
    case_decide as Hkey; [|done]. subst key.
    rewrite (not_elem_of_list_to_map_1 _ _ Hnotin). simpl.
    by destruct (dependencyMap0 !! entryPath).
Qed.

Lemma buildDependencyMap_total fuel g entryPoints dependencyMap0 :
  Forall (λ entry, ∃ deps,
            flatImportList fuel g (findByFacade g entry.2) = Ok deps) entryPoints →
  ∃ dependencyMap,
    buildDependencyMap fuel g entryPoints dependencyMap0 = Ok dependencyMap.
Proof.
  intros Hall. revert dependencyMap0.
  induction Hall as [|[entryPath entryModuleID] rest [deps Hdeps] _ IH];
    intros dependencyMap0; simpl; [by eexists|].
  simpl in Hdeps. rewrite Hdeps. simpl. apply IH.
Qed.

(** X9.  The dependency map has one entry for every entry point and no
    other: the list under an entry path is the list [flatImportList] returns
    for the chunk whose facade is that entry's module. *)
Theorem buildDependencyMap_lookup (fuel : nat) (g : list OutputItem)
    (entryPoints : list (string * string))
    (dependencyMap : gmap string (list string)) :
  NoDup entryPoints.*1 →
  buildDependencyMap fuel g entryPoints ∅ = Ok dependencyMap →
  ∀ entryPath deps,
    dependencyMap !! entryPath = Some deps ↔
    ∃ entryModuleID,
      (entryPath, entryModuleID) ∈ entryPoints
      ∧ flatImportList fuel g (findByFacade g entryModuleID) = Ok deps.
Proof.
  intros Hnodup (Hall & Hmap)%buildDependencyMap_Ok entryPath deps.
  rewrite (Hmap Hnodup), (right_id_L ∅ (∪)), lookup_fmap.
  rewrite Forall_forall in Hall.
  split.
  - destruct (list_to_map entryPoints !! entryPath) as [entryModuleID|] eqn:Hid;
      simpl; [|done].
    apply elem_of_list_to_map in Hid; [|done].
    intros [= <-]. exists entryModuleID. split; [done|].
    destruct (Hall _ Hid) as [deps Hdeps]. simpl in Hdeps.
    unfold dependenciesOf. by rewrite Hdeps.
  - intros (entryModuleID & Hin & Hflat).
    apply elem_of_list_to_map in Hin; [|done]. rewrite Hin. simpl.
    unfold dependenciesOf. by rewrite Hflat.
Qed.

Lemma buildDependencyMap_lookup_witness :
  (<["b.js" := ["f.js"; "b.js"]]>
     (<["a.js" := ["e.js"; "c.js"; "e.js"; "d.js"; "a.js"]]> ∅)
   : gmap string (list string)) !! "b.js" = Some ["f.js"; "b.js"] ↔
  ∃ entryModuleID,
    ("b.js", entryModuleID) ∈ [("a.js", "/ext/a.js"); ("b.js", "/ext/b.js")]
    ∧ flatImportList 3 diamond (findByFacade diamond entryModuleID)
      = Ok ["f.js"; "b.js"].
Proof.
  apply (buildDependencyMap_lookup 3 diamond
           [("a.js", "/ext/a.js"); ("b.js", "/ext/b.js")]).
  - by apply (bool_decide_unpack _).
  - reflexivity.
Defined.

(** X10.  The order in which the entry points are enumerated does not
    matter: any other enumeration of the same entries builds the same
    dependency map. *)
Theorem buildDependencyMap_permutation (fuel : nat) (g : list OutputItem)
    (entryPoints entryPoints' : list (string * string))
    (dependencyMap : gmap string (list string)) :
  NoDup entryPoints.*1 →
  entryPoints ≡ₚ entryPoints' →
  buildDependencyMap fuel g entryPoints ∅ = Ok dependencyMap →
  buildDependencyMap fuel g entryPoints' ∅ = Ok dependencyMap.
Proof.
  intros Hnodup Hperm Hbuild.
  pose proof Hbuild as (Hall & Hmap)%buildDependencyMap_Ok.
  rewrite Hperm in Hall.
  destruct (buildDependencyMap_total fuel g entryPoints' ∅ Hall) as [d' Hd'].
  rewrite Hd'. f_equal.
  pose proof Hd' as (_ & Hmap')%buildDependencyMap_Ok.
  rewrite (Hmap Hnodup), Hmap' by (by rewrite <-Hperm).
  by rewrite (list_to_map_proper _ _ Hnodup Hperm).
Qed.

Lemma buildDependencyMap_permutation_witness :
  buildDependencyMap 3 diamond [("b.js", "/ext/b.js"); ("a.js", "/ext/a.js")] ∅
  = Ok (<["b.js" := ["f.js"; "b.js"]]>
          (<["a.js" := ["e.js"; "c.js"; "e.js"; "d.js"; "a.js"]]> ∅)).
Proof.
  apply (buildDependencyMap_permutation 3 diamond
           [("a.js", "/ext/a.js"); ("b.js", "/ext/b.js")]).
  - by apply (bool_decide_unpack _).
  - apply Permutation_swap.
  - reflexivity.
Defined.

(** ** Entry points *)

Lemma registerEntryPoint_lookup resolve entryPoints scriptPath path v :
  (∀ p w, entryPoints !! p = Some w → w = resolve p ∧ p ∉ objectPrototypeKeys) →
  registerEntryPoint resolve entryPoints scriptPath !! path = Some v ↔
  v = resolve path
  ∧ (is_Some (entryPoints !! path)
     ∨ (path = scriptPath ∧ path ∉ objectPrototypeKeys)).
Proof.
  intros Hinv. unfold registerEntryPoint, propertyTruthy.
  assert (entryPoints !! path = Some v ↔
          v = resolve path ∧ is_Some (entryPoints !! path)) as Hold.
  { split; [intros Hv; destruct (Hinv _ _ Hv); by eauto|].
    intros [-> [w Hw]]. by destruct (Hinv _ _ Hw) as [<- _]. }
  destruct (entryPoints !! scriptPath) as [w|] eqn:Hw.
  - destruct (Hinv _ _ Hw) as [-> Hproto].
    destruct (truthyString (resolve scriptPath)).
    + rewrite Hold. split; [intros [-> ?]; by auto|].
      intros [-> [?|[-> _]]]; split; by eauto.
    + rewrite insert_id by done. rewrite Hold.
      split; [intros [-> ?]; by auto|].
      intros [-> [?|[-> _]]]; split; by eauto.
  - case_bool_decide as Hproto.
    + rewrite Hold. split; [intros [-> ?]; by auto|].
      intros [-> [?|[-> ?]]]; [by split|done].
    + rewrite lookup_insert. case_decide as Hpath.
      * subst path. split; [intros [= <-]; by auto|by intros [-> _]].
      * rewrite Hold. split; [intros [-> ?]; by auto|].
        intros [-> [?|[-> _]]]; [by split|done].
Qed.

Lemma registerEntryPoints_lookup resolve entryPoints paths :
  (∀ p w, entryPoints !! p = Some w → w = resolve p ∧ p ∉ objectPrototypeKeys) →
  ∀ path v,
    foldl (registerEntryPoint resolve) entryPoints paths !! path = Some v ↔
    v = resolve path
    ∧ (is_Some (entryPoints !! path)
       ∨ (path ∈ paths ∧ path ∉ objectPrototypeKeys)).
Proof.
  revert entryPoints. induction paths as [|scriptPath paths IH];
    intros entryPoints Hinv path v; simpl.
  - split.
    + intros Hv. destruct (Hinv _ _ Hv). by eauto.
    + intros [-> [[w Hw]|[?%elem_of_nil _]]]; [|done].
      by destruct (Hinv _ _ Hw) as [<- _].
  - rewrite IH.
    + split.
      * intros [-> [[w Hw]|[Hin Hproto]]].
        -- apply (registerEntryPoint_lookup _ _ _ _ _ Hinv) in Hw as [_ [?|[-> ?]]];
             (split; [done|]); [by left|right; split; [by left|done]].
        -- split; [done|]. right. split; [by right|done].
      * intros [-> [[w Hw]|[[->|Hin]%elem_of_cons Hproto]]]; (split; [done|]).
        -- left. exists (resolve path).
           apply (registerEntryPoint_lookup _ _ _ _ _ Hinv). split; [done|].
           left. by exists w.
        -- left. exists (resolve scriptPath).
           apply (registerEntryPoint_lookup _ _ _ _ _ Hinv). by auto.
        -- by right.
    + intros p w Hw.
      apply (registerEntryPoint_lookup _ _ _ _ _ Hinv) in Hw as [-> [[w' Hw']|[_ ?]]];
        [|done]. by destruct (Hinv _ _ Hw').
Qed.

Lemma collectEntryPoints_fold resolve manifest :
  collectEntryPoints resolve manifest
  = foldl (registerEntryPoint resolve) ∅ (scriptPaths manifest).
Proof.
  unfold collectEntryPoints, scriptPaths.
  assert (∀ contentScripts entryPoints,
    foldl (λ entryPoints contentScript,
             foldl (registerEntryPoint resolve) entryPoints
                   (default [] (js contentScript)))
          entryPoints contentScripts
    = foldl (registerEntryPoint resolve) entryPoints
        (concat ((λ contentScript, default [] (js contentScript))
                   <$> contentScripts))) as Hnested.
  { induction contentScripts as [|cs css IH]; intros entryPoints; simpl; [done|].
    by rewrite IH, foldl_app. }
  rewrite Hnested, foldl_app.
  by destruct (background manifest).
Qed.

(** X11.  The entry points collected from a manifest are its script paths,
    each mapped to its resolved module path; a script whose path is the name
    of a property of [Object.prototype] (such as [constructor]) is not
    registered, because [entryPoints[scriptPath]] is already truthy for
    it. *)
Theorem collectEntryPoints_lookup (resolve : string → string) (manifest : Manifest)
    (path v : string) :
  collectEntryPoints resolve manifest !! path = Some v ↔
  v = resolve path
  ∧ path ∈ scriptPaths manifest
  ∧ path ∉ objectPrototypeKeys.
Proof.
  rewrite collectEntryPoints_fold, registerEntryPoints_lookup.
  - rewrite lookup_empty. split.
    + intros [-> [[w Hw]|?]]; by eauto.
    + intros [-> ?]. by eauto.
  - intros p w. by rewrite lookup_empty.
Qed.

Example collectEntryPoints_sample :
  let entryPoints :=
    collectEntryPoints (λ path, "/ext/" +:+ path)
      {| content_scripts := Some [ {| js := Some ["a.js"; "constructor"] |};
                                   {| js := None |} ];
         background := Some (Some ["b.js"; "a.js"]) |} in
  entryPoints !! "a.js" = Some "/ext/a.js"
  ∧ entryPoints !! "b.js" = Some "/ext/b.js"
  ∧ entryPoints !! "constructor" = None
  ∧ size entryPoints = 2.
Proof. vm_compute. repeat split. Qed.

(** ** The rewrite as a substitution *)

Lemma substituteAll_app dependencyMap l1 l2 :
  substituteAll dependencyMap (l1 ++ l2)
  = substituteAll dependencyMap l1 ++ substituteAll dependencyMap l2.
Proof. unfold substituteAll. by rewrite fmap_app, concat_app. Qed.

(** The loop run down from index [n] has substituted the first [n]
    entries, or thrown on the entry without a list that it met first. *)
Lemma rewriteLoop_substitution dependencyMap n js :
  n ≤ length js →
  rewriteLoop dependencyMap n js
  = if bool_decide (Forall (λ key, is_Some (dependencyMap !! key)) (take n js))
    then Ok (substituteAll dependencyMap (take n js) ++ drop n js)
    else Throw TypeError.
Proof.
  revert js. induction n as [|i IH]; intros js Hn; cbn [rewriteLoop].
  - rewrite take_0, drop_0. by rewrite bool_decide_eq_true_2 by constructor.
  - destruct (lookup_lt_is_Some_2 js i) as [key Hkey]; [lia|].
    rewrite Hkey, (take_S_r _ _ _ Hkey).
    change (default "undefined" (Some key)) with key.
    destruct (dependencyMap !! key) as [deps|] eqn:Hdeps.
    + rewrite IH by (apply splice1_length; lia).
      rewrite splice1_take, splice1_drop by lia.
      rewrite substituteAll_app. unfold substituteAll at 3. simpl.
      rewrite Hdeps. simpl. rewrite app_nil_r, <-app_assoc.
      case_bool_decide as H1; case_bool_decide as H2; try done.
      * destruct H2. apply Forall_app. split; [done|].
        apply Forall_singleton. by rewrite Hdeps.
      * destruct H1. by apply Forall_app in H2 as [? _].
    + rewrite bool_decide_eq_false_2; [done|].
      rewrite Forall_app, Forall_singleton, Hdeps. by intros [_ [? ?]].
Qed.

Lemma rewriteScripts_substitution_eq dependencyMap js :
  rewriteScripts dependencyMap js
  = if bool_decide (Forall (λ key, is_Some (dependencyMap !! key)) js)
    then Ok (rewrittenScripts dependencyMap js)
    else Throw TypeError.
Proof.
  unfold rewriteScripts, rewrittenScripts.
  rewrite rewriteLoop_substitution by done.
  rewrite firstn_all, drop_all, app_nil_r.
  by case_bool_decide.
Qed.

(** X13.  Substituting backwards and in place is substituting all at
    once: when every script of the list has a dependency list, the rewrite
    returns the concatenation of these lists, filtered for uniqueness;
    otherwise it throws a [TypeError]. *)
Theorem rewriteScripts_substitution (dependencyMap : gmap string (list string))
    (js : list string) :
  (Forall (λ key, is_Some (dependencyMap !! key)) js ∧
   rewriteScripts dependencyMap js
   = Ok (uniqueFilter (substituteAll dependencyMap js)))
  ∨ (Exists (λ key, dependencyMap !! key = None) js ∧
     rewriteScripts dependencyMap js = Throw TypeError).
Proof.
  rewrite rewriteScripts_substitution_eq. case_bool_decide as Hall.
  - by left.
  - right. split; [|done].
    apply not_Forall_Exists in Hall; [|apply _].
    eapply Exists_impl; [done|]. intros key Hkey. simpl in Hkey.
    destruct (dependencyMap !! key); [|done]. destruct Hkey. by eexists.
Qed.

(** X14.  The rewrite neither drops nor invents a script: a file is in the
    rewritten list exactly when it is in the dependency list of one of the
    original entries. *)
Theorem rewriteScripts_elem_of (dependencyMap : gmap string (list string))
    (js out : list string) :
  rewriteScripts dependencyMap js = Ok out →
  ∀ x, x ∈ out ↔
    ∃ key deps, key ∈ js ∧ dependencyMap !! key = Some deps ∧ x ∈ deps.
Proof.
  rewrite rewriteScripts_substitution_eq. case_bool_decide as Hall; [|done].
  intros [= <-] x. unfold rewrittenScripts.
  rewrite uniqueFilter_firstOccurrences, elem_of_firstOccurrences.
  unfold substituteAll. rewrite elem_of_concat. split.
  - intros (deps & Hx & (key & -> & Hkey)%list_elem_of_fmap).
    rewrite Forall_forall in Hall. destruct (Hall key Hkey) as [deps Hdeps].
    exists key, deps. by rewrite Hdeps in Hx.
  - intros (key & deps & Hkey & Hdeps & Hx). exists deps. split; [done|].
    apply list_elem_of_fmap. exists key. by rewrite Hdeps.
Qed.

Lemma rewriteScripts_elem_of_witness :
  "y.js" ∈ ["x.js"; "a.js"; "y.js"; "b.js"] ↔
    ∃ key deps,
      key ∈ ["a.js"; "b.js"]
      ∧ (<["a.js" := ["x.js"; "a.js"]]> (<["b.js" := ["x.js"; "y.js"; "b.js"]]> ∅)
         : gmap string (list string)) !! key = Some deps
      ∧ "y.js" ∈ deps.
Proof.
  apply (rewriteScripts_elem_of
           (<["a.js" := ["x.js"; "a.js"]]> (<["b.js" := ["x.js"; "y.js"; "b.js"]]> ∅))
           ["a.js"; "b.js"]).
  vm_compute. reflexivity.
Defined.

(** ** The uniqueness filter *)

Lemma firstOccurrences_NoDup l : NoDup l → firstOccurrences l = l.
Proof.
  induction 1 as [|x l Hx _ IH]; simpl; [done|]. rewrite IH. f_equal.
  clear IH. induction l as [|y l IH]; [done|].
  apply not_elem_of_cons in Hx as [Hne Hx].
  rewrite filter_cons_True by congruence. by rewrite IH.
Qed.

Lemma firstOccurrences_sublist l : firstOccurrences l `sublist_of` l.
Proof.
  induction l as [|x l IH]; simpl; [done|].
  apply sublist_skip. etrans; [apply sublist_filter|done].
Qed.

(** X15.  The filter [arr.indexOf(val) === i] keeps the elements in their
    order (its result is a sublist of the array), applying it twice is
    applying it once, and it changes nothing exactly on arrays without
    repeats. *)
Theorem uniqueFilter_order (arr : list string) :
  uniqueFilter arr `sublist_of` arr
  ∧ uniqueFilter (uniqueFilter arr) = uniqueFilter arr
  ∧ (uniqueFilter arr = arr ↔ NoDup arr).
Proof.
  rewrite !uniqueFilter_firstOccurrences.
  split; [apply firstOccurrences_sublist|]. split.
  - apply firstOccurrences_NoDup, NoDup_firstOccurrences.
  - split; [|apply firstOccurrences_NoDup].
    intros <-. apply NoDup_firstOccurrences.
Qed.

(** ** The rewrite of a whole manifest *)

Lemma mapM_decide {A B} (f : A → outcome B) (P : A → Prop)
    `{!∀ x, Decision (P x)} (h : A → B) e l :
  (∀ x, f x = if bool_decide (P x) then Ok (h x) else Throw e) →
  mapM f l = if bool_decide (Forall P l) then Ok (h <$> l) else Throw e.
Proof.
  intros Hf. induction l as [|x l IH]; cbn [mapM].
  - by rewrite bool_decide_eq_true_2 by constructor.
  - rewrite Hf, IH.
    destruct (decide (P x)) as [Hx|Hx].
    + rewrite (bool_decide_eq_true_2 _ Hx). cbn [obind].
      destruct (decide (Forall P l)) as [Hl|Hl].
      * rewrite (bool_decide_eq_true_2 _ Hl). cbn [obind].
        by rewrite bool_decide_eq_true_2 by (by constructor).
      * rewrite (bool_decide_eq_false_2 _ Hl). cbn [obind].
        rewrite bool_decide_eq_false_2; [done|by intros [? ?]%Forall_cons].
    + rewrite (bool_decide_eq_false_2 _ Hx). cbn [obind].
      rewrite bool_decide_eq_false_2; [done|by intros [? ?]%Forall_cons].
Qed.

Lemma rewriteContentScript_eq dependencyMap contentScript :
  rewriteContentScript dependencyMap contentScript
  = if bool_decide (Forall (λ key, is_Some (dependencyMap !! key))
                      (default [] (js contentScript)))
    then Ok {| js := rewrittenScripts dependencyMap <$> js contentScript |}
    else Throw TypeError.
Proof.
  unfold rewriteContentScript. destruct contentScript as [[scripts|]]; cbn [js].
  - change (default [] (Some scripts)) with scripts.
    rewrite rewriteScripts_substitution_eq. by case_bool_decide.
  - by rewrite bool_decide_eq_true_2 by constructor.
Qed.

Lemma Forall_concat_fmap {A} (P : string → Prop) (f : A → list string) (l : list A) :
  Forall P (concat (f <$> l)) ↔ Forall (λ x, Forall P (f x)) l.
Proof.
  induction l as [|x l IH]; simpl; [split; constructor|].
  by rewrite Forall_app, Forall_cons, IH.
Qed.

Lemma rewriteManifest_eq dependencyMap manifest :
  rewriteManifest dependencyMap manifest
  = if bool_decide (Forall (λ key, is_Some (dependencyMap !! key))
                      (scriptPaths manifest))
    then Ok (rewrittenManifest dependencyMap manifest)
    else Throw TypeError.
Proof.
  unfold rewriteManifest, scriptPaths, rewrittenManifest.
  rewrite (mapM_decide _ _ _ TypeError _ (rewriteContentScript_eq dependencyMap)).
  destruct manifest as [contentScripts bg]. simpl.
  case_bool_decide as Hcs; simpl.
  - destruct bg as [[scripts|]|]; simpl.
    + rewrite rewriteScripts_substitution_eq. case_bool_decide as Hbg; simpl.
      * rewrite bool_decide_eq_true_2; [by destruct contentScripts|].
        apply Forall_app. split; [by apply Forall_concat_fmap|done].
      * rewrite bool_decide_eq_false_2; [done|]. by intros [_ ?]%Forall_app.
    + rewrite bool_decide_eq_true_2; [by destruct contentScripts|].
      rewrite app_nil_r. by apply Forall_concat_fmap.
    + rewrite bool_decide_eq_true_2; [by destruct contentScripts|].
      rewrite app_nil_r. by apply Forall_concat_fmap.
  - rewrite bool_decide_eq_false_2; [done|].
    intros [?%Forall_concat_fmap _]%Forall_app. done.
Qed.

(** X16.  The rewrite treats every execution context on its own: when
    every script of the manifest has a dependency list, each content-script
    block and the background block get their own substituted and filtered
    list, blocks without scripts are left as they are, and the blocks keep
    their number and order; when some script has no list, the rewrite throws
    a [TypeError]. *)
Theorem rewriteManifest_contexts (dependencyMap : gmap string (list string))
    (manifest : Manifest) :
  (Forall (λ key, is_Some (dependencyMap !! key)) (scriptPaths manifest) ∧
   rewriteManifest dependencyMap manifest
   = Ok (rewrittenManifest dependencyMap manifest))
  ∨ (Exists (λ key, dependencyMap !! key = None) (scriptPaths manifest) ∧
     rewriteManifest dependencyMap manifest = Throw TypeError).
Proof.
  rewrite rewriteManifest_eq. case_bool_decide as Hall.
  - by left.
  - right. split; [|done].
    apply not_Forall_Exists in Hall; [|apply _].
    eapply Exists_impl; [done|]. intros key Hkey. simpl in Hkey.
    destruct (dependencyMap !! key); [|done]. destruct Hkey. by eexists.
Qed.

(** X12.  From the manifest to its rewrite: with the dependency map built
    for the entry points collected from the manifest itself, the rewrite of
    that manifest finds a list for every script and returns, provided no
    script path is the name of a property of [Object.prototype]. *)
Theorem rewriteManifest_succeeds (resolve : string → string) (manifest : Manifest)
    (fuel : nat) (g : list OutputItem) (entryPoints : list (string * string))
    (dependencyMap : gmap string (list string)) :
  entryPoints ≡ₚ map_to_list (collectEntryPoints resolve manifest) →
  buildDependencyMap fuel g entryPoints ∅ = Ok dependencyMap →
  (∀ path, path ∈ scriptPaths manifest → path ∉ objectPrototypeKeys) →
  rewriteManifest dependencyMap manifest
  = Ok (rewrittenManifest dependencyMap manifest).
Proof.
  intros Hperm Hbuild Hproto.
  assert (NoDup entryPoints.*1) as Hnodup.
  { rewrite Hperm. apply NoDup_fst_map_to_list. }
  apply buildDependencyMap_Ok in Hbuild as (_ & Hmap).
  rewrite rewriteManifest_eq, bool_decide_eq_true_2; [done|].
  apply Forall_forall. intros path Hpath.
  rewrite (Hmap Hnodup), (right_id_L ∅ (∪)), lookup_fmap.
  rewrite (list_to_map_proper _ _ Hnodup Hperm), list_to_map_to_list.
  assert (collectEntryPoints resolve manifest !! path = Some (resolve path)) as ->;
    [|by eexists].
  rewrite collectEntryPoints_fold, registerEntryPoints_lookup
    by (intros p w; by rewrite lookup_empty).
  split; [done|]. right. split; [done|by apply Hproto].
Qed.

Lemma rewriteManifest_succeeds_witness :
  rewriteManifest sampleDependencyMap sampleManifest
  = Ok (rewrittenManifest sampleDependencyMap sampleManifest).
Proof.
  apply (rewriteManifest_succeeds (λ path, "/ext/" +:+ path) sampleManifest
           3 diamond sampleEntryPoints).
  - assert (collectEntryPoints (λ path, "/ext/" +:+ path) sampleManifest
            = list_to_map sampleEntryPoints) as ->
      by (vm_compute; reflexivity).
    symmetry. apply map_to_list_to_map. by apply (bool_decide_unpack _).
  - vm_compute. reflexivity.
  - intros path Hpath. vm_compute scriptPaths in Hpath.
    repeat (apply elem_of_cons in Hpath as [->|Hpath];
            [by apply (bool_decide_unpack _)|]).
    by apply elem_of_nil in Hpath.
Defined.

Example rewrittenManifest_sample :
  rewrittenManifest sampleDependencyMap sampleManifest
  = {| content_scripts :=
         Some [ {| js := Some ["e.js"; "c.js"; "d.js"; "a.js"] |}; {| js := None |} ];
       background :=
         Some (Some ["f.js"; "b.js"; "e.js"; "c.js"; "d.js"; "a.js"]) |}.
Proof. vm_compute. reflexivity. Qed.

(** ** The IIFE of the Babel plugin *)

Lemma allocateAll_app allocate cache keys1 keys2 :
  allocateAll allocate cache (keys1 ++ keys2)
  = ((allocateAll allocate cache keys1).1
     ++ (allocateAll allocate (allocateAll allocate cache keys1).2 keys2).1,
     (allocateAll allocate (allocateAll allocate cache keys1).2 keys2).2).
Proof.
  revert cache. induction keys1 as [|key keys1 IH]; intros cache; simpl.
  - by destruct (allocateAll allocate cache keys2).
  - destruct (allocate cache key) as [name cache']. rewrite IH.
    by destruct (allocateAll allocate cache' keys1).
Qed.

Lemma importArguments_allocateAll generateUniqueIdentifier relativePath cwd sources cache :
  importArguments generateUniqueIdentifier relativePath cwd sources cache
  = let allocated :=
      allocateAll generateUniqueIdentifier cache
        ((λ src : string * string, relativePath cwd src.1) <$> sources) in
    ({| iifeParamNames := sources.*2;
        iifeArgs := importArgumentTemplate <$> allocated.1 |}, allocated.2).
Proof.
  revert cache. induction sources as [|[sourcePath name] rest IH]; intros cache;
    simpl; [done|].
  destruct (generateUniqueIdentifier cache (relativePath cwd sourcePath))
    as [uid cache'].
  rewrite IH. simpl.
  by destruct (allocateAll generateUniqueIdentifier cache' _).
Qed.

(** The lists [Program.exit] builds, in terms of the names its requests
    return. *)
Lemma programExit_Ok generateUniqueIdentifier relativePath cwd filename meta cache :
  let allocated :=
    allocateAll generateUniqueIdentifier cache
      (moduleKeys relativePath cwd filename meta) in
  let exportCount := if hasExports meta then 1 else 0 in
  programExit generateUniqueIdentifier relativePath true (Some filename) cwd meta cache
  = Ok (Some {| iifeParamNames :=
                  (if hasExports meta then [exportName meta] else [])
                  ++ (source meta).*2;
                iifeArgs :=
                  (exportArgumentTemplate <$> take exportCount allocated.1)
                  ++ (importArgumentTemplate <$> drop exportCount allocated.1) |},
        allocated.2).
Proof.
  unfold programExit, moduleKeys. simpl.
  destruct (hasExports meta); simpl.
  - destruct (generateUniqueIdentifier cache (relativePath cwd filename))
      as [uid cache1].
    rewrite importArguments_allocateAll. simpl.
    by destruct (allocateAll generateUniqueIdentifier cache1 _).
  - rewrite importArguments_allocateAll. simpl.
    by destruct (allocateAll generateUniqueIdentifier cache _).
Qed.

(** X17.  On a module with a file name, [Program.exit] builds one argument
    for every parameter: the exports parameter first when the module has
    exports, then the parameters of the sources in their order; the cache is
    the one left by the requests for the module's keys. *)
Theorem programExit_parameters
    (generateUniqueIdentifier : gmap string string → string → string * gmap string string)
    (relativePath : string → string → string)
    (cwd filename : string) (meta : ModuleMetadata) (cache : gmap string string) :
  ∃ iife,
    programExit generateUniqueIdentifier relativePath true (Some filename) cwd
      meta cache
    = Ok (Some iife,
          (allocateAll generateUniqueIdentifier cache
             (moduleKeys relativePath cwd filename meta)).2)
    ∧ iifeParamNames iife
      = (if hasExports meta then [exportName meta] else []) ++ (source meta).*2
    ∧ length (iifeArgs iife) = length (iifeParamNames iife).
Proof.
  rewrite programExit_Ok. eexists. split; [done|]. split; [done|]. simpl.
  rewrite !length_app, !length_fmap, length_take, length_drop, allocateAll_length.
  unfold moduleKeys. rewrite length_app, length_fmap.
  destruct (hasExports meta); simpl; lia.
Qed.

Lemma defaultGenerator_valid cache keys name :
  goodCache "__" "__" cache →
  name ∈ (allocateAll (makeIdentifierGenerator "__" "__") cache keys).1 →
  validIdentifier name = true.
Proof.
  intros Hgood (i & Hname)%list_elem_of_lookup_1.
  destruct (lookup_lt_is_Some_2 keys i) as [key Hkey].
  { apply lookup_lt_Some in Hname. by rewrite allocateAll_length in Hname. }
  eapply (good_value_valid "__" "__" _ (makeIdentifierGenerator_step _ _)
            (ex_intro _ _ eq_refl) eq_refl eq_refl).
  - apply (allocateAll_good "__" "__" _ (makeIdentifierGenerator_step _ _)
             (ex_intro _ _ eq_refl) cache keys Hgood).
  - by eapply (allocateAll_lookup "__" "__" _ (makeIdentifierGenerator_step _ _)
                 (ex_intro _ _ eq_refl)).
Qed.

(** X18.  With the plugin's default generator, every name substituted
    into an argument template is a valid identifier, so [this.NAME] always
    parses. *)
Theorem programExit_identifiers (relativePath : string → string → string)
    (cwd filename : string) (meta : ModuleMetadata) (cache cache' : gmap string string)
    (iife : Iife) :
  goodCache "__" "__" cache →
  programExit (makeIdentifierGenerator "__" "__") relativePath true (Some filename)
    cwd meta cache = Ok (Some iife, cache') →
  ∀ arg name, arg ∈ iifeArgs iife → name ∈ exprProperties arg →
    validIdentifier name = true.
Proof.
  intros Hgood. rewrite programExit_Ok. intros [= <- _] arg name Harg Hname.
  simpl in Harg.
  apply (defaultGenerator_valid cache (moduleKeys relativePath cwd filename meta));
    [done|].
  apply elem_of_app in Harg
    as [(uid & -> & Huid)%list_elem_of_fmap|(uid & -> & Huid)%list_elem_of_fmap].
  - simpl in Hname.
    assert (name = uid) as ->.
    { rewrite !elem_of_cons in Hname. destruct Hname as [->|[->|?%elem_of_nil]]; done. }
    apply elem_of_take in Huid as (i & Hi & _). by eapply list_elem_of_lookup_2.
  - simpl in Hname. apply list_elem_of_singleton in Hname as ->.
    apply list_elem_of_lookup_1 in Huid as [i Hi]. rewrite lookup_drop in Hi.
    by eapply list_elem_of_lookup_2.
Qed.

Lemma programExit_identifiers_witness :
  programExit (makeIdentifierGenerator "__" "__") (λ _ file, file) true (Some "lib.js")
    "/ext" {| hasExports := true; exportName := "_exports";
              source := [("src/dep-1.js", "_dep")] |} ∅
  = Ok (Some {| iifeParamNames := ["_exports"; "_dep"];
                iifeArgs := [ exportArgumentTemplate "__lib_js__";
                              importArgumentTemplate "__src_dep_1_js__" ] |},
        <["src/dep-1.js" := "__src_dep_1_js__"]> (<["lib.js" := "__lib_js__"]> ∅))
  ∧ validIdentifier "__src_dep_1_js__" = true.
Proof.
  assert (programExit (makeIdentifierGenerator "__" "__") (λ _ file, file) true
    (Some "lib.js") "/ext"
    {| hasExports := true; exportName := "_exports";
       source := [("src/dep-1.js", "_dep")] |} ∅
    = Ok (Some {| iifeParamNames := ["_exports"; "_dep"];
                  iifeArgs := [ exportArgumentTemplate "__lib_js__";
                                importArgumentTemplate "__src_dep_1_js__" ] |},
          <["src/dep-1.js" := "__src_dep_1_js__"]> (<["lib.js" := "__lib_js__"]> ∅)))
    as Hexit by (vm_compute; reflexivity).
  split; [exact Hexit|].
  apply (programExit_identifiers _ _ _ _ _ _ _ (goodCache_empty _ _) Hexit
           (importArgumentTemplate "__src_dep_1_js__")).
  - apply list_elem_of_further, list_elem_of_here.
  - apply list_elem_of_here.
Defined.

(** Every global name in the IIFE of a module is the cache's entry for the
    file it stands for. *)
Lemma slotNameIn_cached relativePath cwd filename meta cache cache' iife key N :
  goodCache "__" "__" cache →
  programExit (makeIdentifierGenerator "__" "__") relativePath true (Some filename)
    cwd meta cache = Ok (Some iife, cache') →
  slotNameIn relativePath cwd filename meta iife key N →
  cache' !! key = Some N.
Proof.
  intros Hgood. rewrite programExit_Ok. intros [= <- <-].
  set (keys := moduleKeys relativePath cwd filename meta).
  set (allocated := allocateAll (makeIdentifierGenerator "__" "__") cache keys).
  assert (∀ i, keys !! i = Some key → allocated.1 !! i = Some N →
               allocated.2 !! key = Some N) as Hlookup.
  { intros i. by apply (allocateAll_lookup "__" "__" _ (makeIdentifierGenerator_step _ _)
                          (ex_intro _ _ eq_refl)). }
  unfold slotNameIn, exportArgumentTemplate, importArgumentTemplate. simpl.
  intros [(Hexports & -> & Harg)|(i & sourcePath & name & Hsrc & -> & Harg)].
  - rewrite Hexports in Harg. apply (Hlookup 0).
    + unfold keys, moduleKeys. by rewrite Hexports.
    + destruct allocated.1 as [|uid names]; [done|]. simpl in *. congruence.
  - assert (allocated.1 !! ((if hasExports meta then 1 else 0) + i) = Some N) as Hname.
    { destruct (hasExports meta); simpl in Harg.
      - destruct allocated.1 as [|uid names]; simpl in *; [done|].
        rewrite drop_0, list_lookup_fmap in Harg.
        destruct (names !! i); by simplify_eq/=.
      - rewrite drop_0, list_lookup_fmap in Harg. simpl.
        destruct (allocated.1 !! i); by simplify_eq/=. }
    apply (Hlookup ((if hasExports meta then 1 else 0) + i)); [|done].
    unfold keys, moduleKeys.
    destruct (hasExports meta); simpl; by rewrite list_lookup_fmap, Hsrc.
Qed.

Lemma defaultGenerator_grows cache keys :
  goodCache "__" "__" cache →
  goodCache "__" "__" (allocateAll (makeIdentifierGenerator "__" "__") cache keys).2
  ∧ cache ⊆ (allocateAll (makeIdentifierGenerator "__" "__") cache keys).2.
Proof.
  intros Hgood. split.
  - by apply (allocateAll_good "__" "__" _ (makeIdentifierGenerator_step _ _)
                (ex_intro _ _ eq_refl)).
  - apply map_subseteq_spec. intros k v.
    by apply (allocateAll_mono "__" "__" _ (makeIdentifierGenerator_step _ _)
                (ex_intro _ _ eq_refl)).
Qed.

(** Two modules processed one after the other use the same global name
    exactly for the same key. *)
Lemma slotNameIn_link relativePath cwd filenameA filenameB metaA metaB
    cacheA cacheA' cacheB cacheB' iifeA iifeB keyA keyB NA NB :
  goodCache "__" "__" cacheA →
  programExit (makeIdentifierGenerator "__" "__") relativePath true (Some filenameA)
    cwd metaA cacheA = Ok (Some iifeA, cacheA') →
  goodCache "__" "__" cacheB → cacheA' ⊆ cacheB →
  programExit (makeIdentifierGenerator "__" "__") relativePath true (Some filenameB)
    cwd metaB cacheB = Ok (Some iifeB, cacheB') →
  slotNameIn relativePath cwd filenameA metaA iifeA keyA NA →
  slotNameIn relativePath cwd filenameB metaB iifeB keyB NB →
  NA = NB ↔ keyA = keyB.
Proof.
  intros HgoodA HexitA HgoodB Hsub HexitB HA HB.
  pose proof (slotNameIn_cached _ _ _ _ _ _ _ _ _ HgoodA HexitA HA) as HcachedA.
  pose proof (slotNameIn_cached _ _ _ _ _ _ _ _ _ HgoodB HexitB HB) as HcachedB.
  rewrite programExit_Ok in HexitB. injection HexitB as _ <-.
  destruct (defaultGenerator_grows cacheB
              (moduleKeys relativePath cwd filenameB metaB) HgoodB) as [HgoodB' Hgrow].
  apply (lookup_weaken _ _ _ _ HcachedA) in Hsub.
  apply (lookup_weaken _ _ _ _ Hsub) in Hgrow.
  split.
  - intros ->. by apply (good_injective _ _ _ HgoodB' keyA keyB NB).
  - intros ->. congruence.
Qed.

(** X19.  The key of an exporting module is [relative(cwd, filename)], the
    key of an import is [relative(cwd, specifier)].  For two modules
    processed by the plugin (default generator, in either order, with any
    other modules in between), the slot the importer reads is the slot the
    exporter writes its exports to exactly when these two keys are equal;
    an import whose specifier gives another key than the file's name reads
    another slot. *)
Theorem programExit_link (relativePath : string → string → string) (cwd : string)
    (exporter importer : string) (metaE metaI : ModuleMetadata)
    (cacheE cacheE' cacheI cacheI' : gmap string string) (iifeE iifeI : Iife)
    (i : nat) (sourcePath name NE NI : string) :
  goodCache "__" "__" cacheE →
  programExit (makeIdentifierGenerator "__" "__") relativePath true (Some exporter)
    cwd metaE cacheE = Ok (Some iifeE, cacheE') →
  goodCache "__" "__" cacheI →
  programExit (makeIdentifierGenerator "__" "__") relativePath true (Some importer)
    cwd metaI cacheI = Ok (Some iifeI, cacheI') →
  cacheE' ⊆ cacheI ∨ cacheI' ⊆ cacheE →
  hasExports metaE = true →
  iifeArgs iifeE !! 0 = Some (exportArgumentTemplate NE) →
  source metaI !! i = Some (sourcePath, name) →
  iifeArgs iifeI !! ((if hasExports metaI then 1 else 0) + i)
  = Some (importArgumentTemplate NI) →
  NI = NE ↔ relativePath cwd sourcePath = relativePath cwd exporter.
Proof.
  intros HgoodE HexitE HgoodI HexitI Horder Hexports HargE Hsource HargI.
  assert (slotNameIn relativePath cwd exporter metaE iifeE
            (relativePath cwd exporter) NE) as HE by (by left).
  assert (slotNameIn relativePath cwd importer metaI iifeI
            (relativePath cwd sourcePath) NI) as HI
    by (right; by exists i, sourcePath, name).
  destruct Horder as [Hsub|Hsub].
  - pose proof (slotNameIn_link _ _ _ _ _ _ _ _ _ _ _ _ _ _ _ _
                  HgoodE HexitE HgoodI Hsub HexitI HE HI) as Hlink.
    split; [intros ->|intros Heq]; symmetry; by apply Hlink.
  - by apply (slotNameIn_link _ _ _ _ _ _ _ _ _ _ _ _ _ _ _ _
                HgoodI HexitI HgoodE Hsub HexitE HI HE).
Qed.

Lemma programExit_link_witness :
  "__lib_js__" = "__sub_lib_js__"
  ↔ sampleRelative "/ext" "./lib.js" = sampleRelative "/ext" "/ext/sub/lib.js".
Proof.
  apply (programExit_link sampleRelative "/ext" "/ext/sub/lib.js" "/ext/sub/main.js"
           {| hasExports := true; exportName := "_exports"; source := [] |}
           {| hasExports := false; exportName := "_exports";
              source := [("./lib.js", "_lib")] |}
           ∅ {[ "sub/lib.js" := "__sub_lib_js__" ]}
           {[ "sub/lib.js" := "__sub_lib_js__" ]}
           (<["lib.js" := "__lib_js__"]> {[ "sub/lib.js" := "__sub_lib_js__" ]})
           {| iifeParamNames := ["_exports"];
              iifeArgs := [exportArgumentTemplate "__sub_lib_js__"] |}
           {| iifeParamNames := ["_lib"];
              iifeArgs := [importArgumentTemplate "__lib_js__"] |}
           0 "./lib.js" "_lib").
  - apply goodCache_empty.
  - vm_compute. reflexivity.
  - split.
    + intros k v [<- <-]%lookup_singleton_Some. by exists 0.
    + intros k1 k2 v [<- _]%lookup_singleton_Some [<- _]%lookup_singleton_Some. done.
    + intros k v [<- <-]%lookup_singleton_Some. by left.
  - vm_compute. reflexivity.
  - by left.
  - reflexivity.
  - reflexivity.
  - reflexivity.
  - reflexivity.
Defined.

(** An import of [sub/lib.js] written [./lib.js] in [sub/main.js] reads the
    slot [__lib_js__], while the module of [sub/lib.js] writes its exports
    to [__sub_lib_js__]. *)
Example programExit_link_mismatch :
  ∃ iifeE iifeI cacheE' cacheI',
    programExit (makeIdentifierGenerator "__" "__") sampleRelative true
      (Some "/ext/sub/lib.js") "/ext"
      {| hasExports := true; exportName := "_exports"; source := [] |} ∅
    = Ok (Some iifeE, cacheE')
    ∧ programExit (makeIdentifierGenerator "__" "__") sampleRelative true
        (Some "/ext/sub/main.js") "/ext"
        {| hasExports := false; exportName := "_exports";
           source := [("./lib.js", "_lib")] |} cacheE'
      = Ok (Some iifeI, cacheI')
    ∧ iifeArgs iifeE = [exportArgumentTemplate "__sub_lib_js__"]
    ∧ iifeArgs iifeI = [importArgumentTemplate "__lib_js__"].
Proof.
  exists {| iifeParamNames := ["_exports"];
            iifeArgs := [exportArgumentTemplate "__sub_lib_js__"] |},
         {| iifeParamNames := ["_lib"];
            iifeArgs := [importArgumentTemplate "__lib_js__"] |},
         {[ "sub/lib.js" := "__sub_lib_js__" ]},
         (<["lib.js" := "__lib_js__"]> {[ "sub/lib.js" := "__sub_lib_js__" ]}).
  split; [vm_compute; reflexivity|]. split; [vm_compute; reflexivity|]. done.
Qed.

(** ** Evaluating the arguments *)

(** X20.  In one global scope, for a name of the default generator, the
    import argument for a file evaluates to the very object the export
    argument for that file passed to the exporting module, and reading it
    changes nothing; the export argument changes what no other name reads.
    An import argument evaluated while its slot is unset (the importer is
    loaded before its exporter) yields [undefined], unless the name is one
    the global object inherits from [Object.prototype], such as
    [__proto__]: then it yields the inherited object. *)
Theorem importArgument_reads_export (N : string) (scope : GlobalScope) :
  defaultName N →
  (∃ exportsObject scope',
      evalExpr (exportArgumentTemplate N) scope = Some (exportsObject, scope')
      ∧ truthy exportsObject = true
      ∧ evalExpr (importArgumentTemplate N) scope' = Some (exportsObject, scope')
      ∧ ∀ N', N' ≠ N →
          evalExpr (importArgumentTemplate N') scope'
          = Some (getProperty scope N', scope'))
  ∧ (slots scope !! N = None →
     evalExpr (importArgumentTemplate N) scope
     = Some (if bool_decide (N ∈ objectPrototypeKeys) then VBuiltin N else VUndefined,
             scope)).
Proof.
  intros Hconst%defaultName_not_constant. split.
  - destruct (evalExpr_export N scope Hconst)
      as (exportsObject & scope' & Heval & Htruthy & Hbound & _ & _ & Hother).
    exists exportsObject, scope'. repeat (split; [done|]).
    unfold importArgumentTemplate. cbn [evalExpr]. split; [by rewrite Hbound|].
    intros N' Hne. by rewrite Hother.
  - intros Hslot. unfold importArgumentTemplate. cbn [evalExpr].
    unfold getProperty, inheritedProperty. rewrite Hconst, Hslot.
    by case_bool_decide.
Qed.

Lemma importArgument_reads_export_witness :
  (∃ exportsObject scope',
      evalExpr (exportArgumentTemplate "__lib_js__") {| slots := ∅; heap := [] |}
      = Some (exportsObject, scope')
      ∧ truthy exportsObject = true
      ∧ evalExpr (importArgumentTemplate "__lib_js__") scope'
        = Some (exportsObject, scope')
      ∧ ∀ N', N' ≠ "__lib_js__" →
          evalExpr (importArgumentTemplate N') scope'
          = Some (getProperty {| slots := ∅; heap := [] |} N', scope'))
  ∧ (slots {| slots := ∅; heap := [] |} !! "__lib_js__" = None →
     evalExpr (importArgumentTemplate "__lib_js__") {| slots := ∅; heap := [] |}
     = Some (if bool_decide ("__lib_js__" ∈ objectPrototypeKeys)
             then VBuiltin "__lib_js__" else VUndefined,
             {| slots := ∅; heap := [] |})).
Proof.
  apply (importArgument_reads_export "__lib_js__" {| slots := ∅; heap := [] |}).
  by exists "lib.js", 0.
Defined.

(** ** The IIFE builds of bin/exby.js *)

Lemma globalExportsVariableName_subseteq cache key :
  cache ⊆ (globalExportsVariableName cache key).2.
Proof.
  apply map_subseteq_spec. intros k v. apply globalExportsVariableName_preserves.
Qed.

(** A load returns the chunk's own code, or the stub that reads the
    imported chunk's exports from the cache's name for that chunk. *)
Lemma loadHook_Ok g chunk id cache text cache' :
  loadHook g chunk id cache = Ok (text, cache') →
  cache ⊆ cache'
  ∧ (id ≠ chunkFileName chunk →
     ∃ importedModule N,
       findChunkByFileName g id = Some importedModule
       ∧ cache' !! id = Some N
       ∧ text = importStub (join "," (exports importedModule)) N).
Proof.
  unfold loadHook. destruct (String.eqb_spec id (chunkFileName chunk)) as [->|Hne].
  - intros [= <- <-]. by split.
  - destruct (findChunkByFileName g id) as [importedModule|]; [|done].
    pose proof (globalExportsVariableName_subseteq cache id) as Hsub.
    pose proof (globalExportsVariableName_stored cache id) as Hstored.
    destruct (globalExportsVariableName cache id) as [name cache1]. simpl in *.
    intros [= <- <-]. split; [done|]. intros _. by exists importedModule, name.
Qed.

Lemma loadAll_Ok g chunk ids cache texts cache' :
  loadAll g chunk ids cache = Ok (texts, cache') →
  cache ⊆ cache'
  ∧ ∀ k id, ids !! k = Some id → id ≠ chunkFileName chunk →
      ∃ importedModule N,
        findChunkByFileName g id = Some importedModule
        ∧ cache' !! id = Some N
        ∧ texts !! k = Some (importStub (join "," (exports importedModule)) N).
Proof.
  revert cache texts. induction ids as [|id0 ids IH]; intros cache texts; simpl.
  - intros [= <- <-]. by split.
  - destruct (loadHook g chunk id0 cache) as [[text cache1]| |] eqn:Hload;
      simpl; [|done..].
    destruct (loadAll g chunk ids cache1) as [[more cache2]| |] eqn:Hall;
      simpl; [|done..].
    intros [= <- <-].
    apply loadHook_Ok in Hload as [Hsub1 Hstub].
    apply IH in Hall as [Hsub2 Hrest].
    split; [by etrans|].
    intros [|k] id Hid Hne; simpl in *.
    + simplify_eq. destruct (Hstub Hne) as (Q & N & HQ & HN & ->).
      exists Q, N. split; [done|]. split; [|done].
      by eapply lookup_weaken.
    + by apply Hrest.
Qed.

Lemma buildChunkNames_Ok g job cache texts name cache' :
  buildChunkNames g job cache = Ok ((texts, name), cache') →
  cache ⊆ cache'
  ∧ cache' !! chunkFileName job.1 = Some name
  ∧ ∀ k id, job.2 !! k = Some id → id ≠ chunkFileName job.1 →
      ∃ importedModule N,
        findChunkByFileName g id = Some importedModule
        ∧ cache' !! id = Some N
        ∧ texts !! k = Some (importStub (join "," (exports importedModule)) N).
Proof.
  unfold buildChunkNames.
  destruct (loadAll g job.1 job.2 cache) as [[loaded cache1]| |] eqn:Hall;
    simpl; [|done..].
  pose proof (globalExportsVariableName_subseteq cache1 (chunkFileName job.1)) as Hsub.
  pose proof (globalExportsVariableName_stored cache1 (chunkFileName job.1)) as Hstored.
  destruct (globalExportsVariableName cache1 (chunkFileName job.1)) as [name1 cache2].
  simpl in *. intros [= <- <- <-].
  apply loadAll_Ok in Hall as [Hsub1 Hstubs].
  split; [by etrans|]. split; [done|].
  intros k id Hid Hne. destruct (Hstubs k id Hid Hne) as (Q & N & HQ & HN & Htext).
  exists Q, N. split; [done|]. split; [by eapply lookup_weaken|done].
Qed.

Lemma buildAllNames_Ok g jobs cache results cache' :
  buildAllNames g jobs cache = Ok (results, cache') →
  cache ⊆ cache'
  ∧ ∀ i job texts name,
      jobs !! i = Some job → results !! i = Some (texts, name) →
      cache' !! chunkFileName job.1 = Some name
      ∧ ∀ k id, job.2 !! k = Some id → id ≠ chunkFileName job.1 →
          ∃ importedModule N,
            findChunkByFileName g id = Some importedModule
            ∧ cache' !! id = Some N
            ∧ texts !! k = Some (importStub (join "," (exports importedModule)) N).
Proof.
  revert cache results. induction jobs as [|job0 jobs IH]; intros cache results; simpl.
  - intros [= <- <-]. by split.
  - destruct (buildChunkNames g job0 cache) as [[[texts0 name0] cache1]| |] eqn:Hjob;
      simpl; [|done..].
    destruct (buildAllNames g jobs cache1) as [[more cache2]| |] eqn:Hall;
      simpl; [|done..].
    intros [= <- <-].
    apply buildChunkNames_Ok in Hjob as (Hsub1 & Hname0 & Hstubs0).
    apply IH in Hall as [Hsub2 Hrest].
    split; [by etrans|].
    intros [|i] job texts name Hjob Hres; simpl in *.
    + simplify_eq. split; [by eapply lookup_weaken|].
      intros k id Hid Hne. destruct (Hstubs0 k id Hid Hne) as (Q & N & HQ & HN & Htext).
      exists Q, N. split; [done|]. split; [by eapply lookup_weaken|done].
    + by apply (Hrest i).
Qed.

(** X21.  Importer and exporter agree on the global variable: in a build
    from an empty cache, whatever the order of the chunks and of the loads,
    the text loaded for an import of chunk [Q] into chunk [P] reads [Q]'s
    exports from exactly the name the IIFE build of [Q] is given as its
    [name]. *)
Theorem build_slot_agreement (g : list OutputItem)
    (jobs : list (OutputChunk * list string))
    (results : list (list string * string)) (cache' : gmap string string)
    (i j k : nat) (P Q : OutputChunk) (idsP idsQ : list string)
    (textsP textsQ : list string) (nameP nameQ : string) :
  buildAllNames g jobs ∅ = Ok (results, cache') →
  jobs !! i = Some (P, idsP) → results !! i = Some (textsP, nameP) →
  jobs !! j = Some (Q, idsQ) → results !! j = Some (textsQ, nameQ) →
  idsP !! k = Some (chunkFileName Q) →
  chunkFileName Q ≠ chunkFileName P →
  ∃ importedModule,
    findChunkByFileName g (chunkFileName Q) = Some importedModule
    ∧ textsP !! k = Some (importStub (join "," (exports importedModule)) nameQ).
Proof.
  intros [_ Hbuild]%buildAllNames_Ok HP HresP HQ HresQ Hid Hne.
  destruct (Hbuild i (P, idsP) textsP nameP HP HresP) as [_ HstubsP].
  destruct (Hbuild j (Q, idsQ) textsQ nameQ HQ HresQ) as [HnameQ _].
  destruct (HstubsP k (chunkFileName Q) Hid Hne) as (importedModule & N & Hfind & HN & Htext).
  exists importedModule. split; [done|]. simpl in *. congruence.
Qed.

Lemma build_slot_agreement_witness :
  ∃ importedModule,
    findChunkByFileName diamond "c.js" = Some importedModule
    ∧ [ "" ; importStub "" "__EXBY_MODULE__c_js__";
        importStub "" "__EXBY_MODULE__d_js__" ] !! 1
      = Some (importStub (join "," (exports importedModule)) "__EXBY_MODULE__c_js__").
Proof.
  apply (build_slot_agreement diamond
           [ (chunkA, ["a.js"; "c.js"; "d.js"]);
             (sampleChunk "c.js" ["e.js"] None, ["c.js"; "e.js"]) ]
           [ ([ ""; importStub "" "__EXBY_MODULE__c_js__";
                importStub "" "__EXBY_MODULE__d_js__" ], "__EXBY_MODULE__a_js__");
             ([ ""; importStub "" "__EXBY_MODULE__e_js__" ], "__EXBY_MODULE__c_js__") ]
           (list_to_map [ ("c.js", "__EXBY_MODULE__c_js__");
                          ("d.js", "__EXBY_MODULE__d_js__");
                          ("a.js", "__EXBY_MODULE__a_js__");
                          ("e.js", "__EXBY_MODULE__e_js__") ])
           0 1 1 chunkA (sampleChunk "c.js" ["e.js"] None)
           ["a.js"; "c.js"; "d.js"] ["c.js"; "e.js"]
           [ ""; importStub "" "__EXBY_MODULE__c_js__";
             importStub "" "__EXBY_MODULE__d_js__" ]
           [ ""; importStub "" "__EXBY_MODULE__e_js__" ]
           "__EXBY_MODULE__a_js__" "__EXBY_MODULE__c_js__");
    try reflexivity.
  discriminate.
Defined.

Lemma loadAll_decide g chunk ids cache :
  (Forall (λ id, id = chunkFileName chunk ∨ is_Some (findChunkByFileName g id)) ids
   ∧ ∃ loaded, loadAll g chunk ids cache = Ok loaded)
  ∨ (Exists (λ id, id ≠ chunkFileName chunk ∧ findChunkByFileName g id = None) ids
     ∧ loadAll g chunk ids cache = Throw TypeError).
Proof.
  revert cache. induction ids as [|id ids IH]; intros cache; simpl.
  - left. split; [constructor|by eexists].
  - unfold loadHook.
    destruct (String.eqb_spec id (chunkFileName chunk)) as [->|Hne]; simpl.
    + destruct (IH cache) as [[Hall [loaded ->]]|[Hex ->]]; simpl.
      * left. split; [constructor; by auto|by eexists].
      * right. split; [by apply Exists_cons_tl|done].
    + destruct (findChunkByFileName g id) as [importedModule|] eqn:Hfind; simpl.
      * destruct (globalExportsVariableName cache id) as [name cache1]. simpl.
        destruct (IH cache1) as [[Hall [loaded ->]]|[Hex ->]]; simpl.
        -- left. split; [constructor; [right; by rewrite Hfind|done]|by eexists].
        -- right. split; [by apply Exists_cons_tl|done].
      * right. split; [|done]. apply Exists_cons_hd. by split.
Qed.

(** X22.  The loads of an IIFE build go through exactly when every id
    Rollup asks for is the chunk itself or another chunk of the first build;
    an id that names no chunk (an import from outside the chunk graph) makes
    the load throw a [TypeError], and with it the build. *)
Theorem buildChunkNames_loads (g : list OutputItem) (job : OutputChunk * list string)
    (cache : gmap string string) :
  (Forall (λ id, id = chunkFileName job.1 ∨ is_Some (findChunkByFileName g id)) job.2
   ∧ ∃ built, buildChunkNames g job cache = Ok built)
  ∨ (Exists (λ id, id ≠ chunkFileName job.1 ∧ findChunkByFileName g id = None) job.2
     ∧ buildChunkNames g job cache = Throw TypeError).
Proof.
  unfold buildChunkNames.
  destruct (loadAll_decide g job.1 job.2 cache) as [[Hall [loaded ->]]|[Hex ->]]; simpl.
  - left. split; [done|].
    destruct (globalExportsVariableName loaded.2 (chunkFileName job.1)). by eexists.
  - by right.
Qed.

(** ** The output-count check, in general *)

(** X23.  The check lets through exactly the builds with one output, whose
    code it returns; for every other number of outputs what it throws is the
    [ReferenceError] for [chunkId], so the [Error] with the message [IIFE
    build of ... generated ... outputs] is never thrown. *)
Theorem checkIifeOutput_outcomes (render : string → string) (iifeOutput : list string) :
  checkIifeOutput (scopeAtCheck render) iifeOutput
  = match iifeOutput with
    | [code] => Ok code
    | _ => Throw (ReferenceError "chunkId is not defined")
    end.
Proof.
  destruct iifeOutput as [|code [|other rest]]; [|done|];
    by apply checkIifeOutput_throws; [apply scopeAtCheck_chunkId|].
Qed.
